(** * kdtree: point representations and the spatial index wrapper

    A shallow embedding of the point-to-vector layer of the kd-tree wrapper
    (class templates [PointRepresentation] and [DefaultPointRepresentation])
    together with the properties its specification states about it.

    Conventions of the embedding.
    - A C++ [float] is an IEEE 754 binary32 number: a [spec_float] of the
      Standard Library with precision 24 and maximal exponent 128.  NaN carries
      no payload, so equalities between floats are equalities of IEEE values.
    - A point of type [PointT] is its object representation, a list of bytes
      whose length is [sizeof(PointT)]; [reinterpret_cast<const float*>(&p)[i]]
      decodes the four bytes at offset [4*i] (little endian).
    - [int] is 32 bits wide; [int] members are integers of [Z], and the
      conversions that can wrap are written out.
    - A call either returns, throws a C++ exception, or has undefined
      behaviour (a read or write outside an array, a read of an indeterminate
      value); see [result]. *)

From Stdlib Require Import ZArith Lia Bool Strings.Byte SpecFloat Sorted.
From stdpp Require Import base option list.

Local Open Scope Z_scope.

(** ** Outcomes of a call *)

Inductive exn : Set :=
  | bad_array_new_length   (* new float[n] with n < 0 *)
  | length_error.          (* std::vector::resize beyond max_size() *)

Inductive result (A : Type) : Type :=
  | Ok (a : A)
  | Throw (e : exn)
  | Undefined.

Arguments Ok {A} a.
Arguments Throw {A} e.
Arguments Undefined {A}.

Definition bind {A B : Type} (m : result A) (k : A -> result B) : result B :=
  match m with
  | Ok a => k a
  | Throw e => Throw e
  | Undefined => Undefined
  end.

Notation "x <-- m ;; k" := (bind m (fun x => k))
  (at level 100, m at level 99, right associativity).

Definition of_option {A : Type} (o : option A) : result A :=
  match o with
  | Some a => Ok a
  | None => Undefined
  end.

(** ** binary32 floats *)

Module Float32.

Definition prec : Z := 24.
Definition emax : Z := 128.

Abbreviation float := spec_float.

(** [std::isfinite]: neither NaN nor an infinity. *)
Definition isfinite (x : float) : bool :=
  match x with
  | S754_zero _ | S754_finite _ _ _ => true
  | S754_infinity _ | S754_nan => false
  end.

(** [x * y], [x + y] and [x - y] on floats, rounded to nearest even. *)
Definition mul (x y : float) : float := SFmul prec emax x y.
Definition add (x y : float) : float := SFadd prec emax x y.
Definition sub (x y : float) : float := SFsub prec emax x y.

Definition zero : float := S754_zero false.
Definition one : float := S754_finite false 8388608 (-23).
Definition nan : float := S754_nan.

(** The values a [float] object can hold. *)
Definition is_binary32 (x : float) : Prop := valid_binary prec emax x = true.

(** Decoding of a 32-bit pattern: sign bit 31, biased exponent bits 30..23,
    fraction bits 22..0.  Every NaN pattern, quiet or signalling, decodes to
    the one NaN of [spec_float]. *)
Definition of_bits (w : Z) : float :=
  let s := Z.testbit w 31 in
  let e := Z.land (Z.shiftr w 23) 255 in
  let m := Z.land w 8388607 in
  if e =? 0 then
    match m with
    | Zpos p => S754_finite s p (-149)
    | _ => S754_zero s
    end
  else if e =? 255 then
    (if m =? 0 then S754_infinity s else S754_nan)
  else
    match m + 8388608 with
    | Zpos p => S754_finite s p (e - 150)
    | _ => S754_nan
    end.

End Float32.

Import Float32.

(** ** Memory *)

(** The object representation of a point. *)
Abbreviation PointT := (list byte).

Definition sizeof (p : PointT) : Z := Z.of_nat (length p).

Definition sizeof_float : Z := 4.

Definition byte_val (b : byte) : Z := Z.of_N (Byte.to_N b).

(** The 32-bit word stored at byte offset [off]. *)
Definition load_word (mem : list byte) (off : nat) : option Z :=
  match mem !! off, mem !! (off + 1)%nat, mem !! (off + 2)%nat, mem !! (off + 3)%nat with
  | Some b0, Some b1, Some b2, Some b3 =>
      Some (Z.lor (byte_val b0)
             (Z.lor (Z.shiftl (byte_val b1) 8)
               (Z.lor (Z.shiftl (byte_val b2) 16) (Z.shiftl (byte_val b3) 24))))
  | _, _, _, _ => None
  end.

(** [reinterpret_cast<const float*>(&p)[i]]. *)
Definition load_float (p : PointT) (i : nat) : result float :=
  of_option (of_bits <$> load_word p (4 * i)%nat).

(** Storage obtained from [new float[n]]: every cell is indeterminate until
    it is written. *)
Abbreviation scratch := (list (option float)).

Definition new_float_array (n : Z) : result scratch :=
  if n <? 0 then Throw bad_array_new_length
  else Ok (replicate (Z.to_nat n) None).

(** [a[i]] as an rvalue, for an array of initialised floats. *)
Definition read {A : Type} (a : list A) (i : nat) : result A :=
  of_option (a !! i).

(** [temp[i]] as an rvalue, for scratch storage. *)
Definition read_cell (temp : scratch) (i : nat) : result float :=
  match temp !! i with
  | Some (Some x) => Ok x
  | _ => Undefined
  end.

(** [a[i] = x]. *)
Definition store {A : Type} (a : list A) (i : nat) (x : A) : result (list A) :=
  if decide (i < length a)%nat then Ok (<[i:=x]> a) else Undefined.

(** [std::copy(src, src + count, dst)], from element [i] on: reads [src[i]],
    writes [dst[i]], and goes on to the next element. *)
Fixpoint copy_from {A : Type} (src : nat -> result A) (i count : nat) (dst : list A)
  : result (list A) :=
  match count with
  | O => Ok dst
  | S k => x <-- src i ;; dst' <-- store dst i x ;; copy_from src (S i) k dst'
  end.

Definition std_copy {A : Type} (src : nat -> result A) (n : Z) (dst : list A)
  : result (list A) :=
  if n <? 0 then Undefined else copy_from src 0 (Z.to_nat n) dst.

(** [std::vector<float>::resize(n)] with [n] converted from [int] to
    [size_t]: a negative [n] becomes larger than [max_size()]. *)
Definition vector_resize (v : list float) (n : Z) : result (list float) :=
  if n <? 0 then Throw length_error
  else Ok (take (Z.to_nat n) v ++ replicate (Z.to_nat n - length v) zero).

(** The loop of [isValid]:
    [for (i = ..; i < n; ++i) if (!std::isfinite(temp[i])) { is_valid = false; break; }]
    with [is_valid] initially true; [count] is the number of iterations left. *)
Fixpoint all_finite_from (temp : nat -> result float) (i count : nat) : result bool :=
  match count with
  | O => Ok true
  | S k =>
      x <-- temp i ;;
      if isfinite x then all_finite_from temp (S i) k else Ok false
  end.

(** ** class PointRepresentation *)

(** The data members. *)
Record PointRepresentation : Type := mkPointRepresentation {
  nr_dimensions_ : Z;
  alpha_ : list float;
  trivial_ : bool
}.

(** The state after the default member initialisers. *)
Definition PointRepresentation_init : PointRepresentation :=
  {| nr_dimensions_ := 0; alpha_ := []; trivial_ := false |}.

Definition vector_empty {A : Type} (v : list A) : bool :=
  match v with
  | [] => true
  | _ :: _ => false
  end.

Section PointRepresentation.

(** The pure virtual [copyToFloatArray(p, out)]: from the object, the point
    and the contents of [out] before the call to the contents after it. *)
Variable copyToFloatArray : PointRepresentation -> PointT -> scratch -> result scratch.

Definition isTrivial (this : PointRepresentation) : bool :=
  trivial_ this && vector_empty (alpha_ this).

(** The branch of [isValid] taken when [trivial_] is set. *)
Definition isValid_fast (this : PointRepresentation) (p : PointT) : result bool :=
  all_finite_from (load_float p) 0 (Z.to_nat (nr_dimensions_ this)).

(** The branch of [isValid] taken otherwise. *)
Definition isValid_full (this : PointRepresentation) (p : PointT) : result bool :=
  temp <-- new_float_array (nr_dimensions_ this) ;;
  temp <-- copyToFloatArray this p temp ;;
  all_finite_from (read_cell temp) 0 (Z.to_nat (nr_dimensions_ this)).

Definition isValid (this : PointRepresentation) (p : PointT) : result bool :=
  if trivial_ this then isValid_fast this p else isValid_full this p.

(** The two loops of [vectorize]. *)
Fixpoint vectorize_plain (temp : scratch) (i count : nat) (out : list float)
  : result (list float) :=
  match count with
  | O => Ok out
  | S k =>
      x <-- read_cell temp i ;;
      out' <-- store out i x ;;
      vectorize_plain temp (S i) k out'
  end.

Fixpoint vectorize_scaled (alpha : list float) (temp : scratch) (i count : nat)
  (out : list float) : result (list float) :=
  match count with
  | O => Ok out
  | S k =>
      x <-- read_cell temp i ;;
      a <-- read alpha i ;;
      out' <-- store out i (mul x a) ;;
      vectorize_scaled alpha temp (S i) k out'
  end.

Definition vectorize (this : PointRepresentation) (p : PointT) (out : list float)
  : result (list float) :=
  temp <-- new_float_array (nr_dimensions_ this) ;;
  temp <-- copyToFloatArray this p temp ;;
  if vector_empty (alpha_ this)
  then vectorize_plain temp 0 (Z.to_nat (nr_dimensions_ this)) out
  else vectorize_scaled (alpha_ this) temp 0 (Z.to_nat (nr_dimensions_ this)) out.

Definition setRescaleValues (this : PointRepresentation) (rescale_array : list float)
  : result PointRepresentation :=
  a <-- vector_resize (alpha_ this) (nr_dimensions_ this) ;;
  a <-- std_copy (read rescale_array) (nr_dimensions_ this) a ;;
  Ok {| nr_dimensions_ := nr_dimensions_ this; alpha_ := a; trivial_ := trivial_ this |}.

Definition getNumberOfDimensions (this : PointRepresentation) : Z :=
  nr_dimensions_ this.

End PointRepresentation.

(** ** class DefaultPointRepresentation *)

Module DefaultPointRepresentation.

(** Conversion of a [size_t] to [int]: reduction modulo 2^32 into the
    signed range (the rule of C++20, and what the usual compilers did before
    it). *)
Definition int_of_size_t (z : Z) : Z := (z + 2147483648) mod 4294967296 - 2147483648.

(** The constructor; [sizeof_PointDefault] is [sizeof(PointDefault)]. *)
Definition ctor (sizeof_PointDefault : Z) : PointRepresentation :=
  let this := PointRepresentation_init in
  let n := int_of_size_t (sizeof_PointDefault / sizeof_float) in
  let n := if n >? 3 then 3 else n in
  {| nr_dimensions_ := n; alpha_ := alpha_ this; trivial_ := true |}.

Definition copyToFloatArray (this : PointRepresentation) (p : PointT) (out : scratch)
  : result scratch :=
  std_copy (fun i => x <-- load_float p i ;; Ok (Some x)) (nr_dimensions_ this) out.

End DefaultPointRepresentation.

(** ** The spatial index

    The wrapper class of the index ([KdTreeFLANN], header [kdtree/kdtree_flann.h])
    and the search engine it delegates to are not part of the sources embedded here;
    only a caller of [setInputCloud] and [nearestKSearch] is.  The definitions
    of this part follow the specification of the wrapper. *)

Inductive index_error : Set :=
  | InvalidArgumentError
  | InvalidInputError
  | NotBuiltError.

(** A search result: the index of a point in the cloud and its squared
    distance to the query. *)
Abbreviation neighbor := (nat * float)%type.

(** Modelled from the spec: the metric of the external search engine, which
    is missing.  The squared Euclidean distance is the sum of the squared
    per-dimension differences, here in binary32 arithmetic. *)
Fixpoint squared_distance (a b : list float) : float :=
  match a, b with
  | x :: a', y :: b' => add (mul (sub x y) (sub x y)) (squared_distance a' b')
  | _, _ => zero
  end.

(** Modelled from the spec: the order of the results of a k-NN query, which
    the missing engine decides: ascending squared distance, ties broken by
    ascending point index. *)
Definition closer (a b : neighbor) : bool :=
  SFltb (snd a) (snd b) || (SFeqb (snd a) (snd b) && (fst a <=? fst b)%nat).

Fixpoint insert_neighbor (x : neighbor) (l : list neighbor) : list neighbor :=
  match l with
  | [] => [x]
  | y :: l' => if closer x y then x :: y :: l' else y :: insert_neighbor x l'
  end.

Definition sort_neighbors (l : list neighbor) : list neighbor :=
  foldr insert_neighbor [] l.

(** Modelled from the spec: [queryKNearest(queryVector, k)] of the missing
    engine, as an exhaustive search: every vector of the dataset is paired with
    its index and its squared distance to the query, the pairs are put in
    order, and the first [k] of them are the answer. *)
Definition queryKNearest (dataset : list (list float)) (q : list float) (k : nat)
  : list neighbor :=
  take k (sort_neighbors (imap (fun i v => (i, squared_distance q v)) dataset)).

(** Modelled from the spec: the two states of the missing wrapper, Unbuilt
    and Built; a built index holds the representation it was bound to and the
    dataset, one feature vector per point of the cloud. *)
Inductive SpatialIndex : Type :=
  | Unbuilt
  | Built (representation : PointRepresentation) (dataset : list (list float)).

Section SpatialIndex.

Variable copyToFloatArray : PointRepresentation -> PointT -> scratch -> result scratch.

(** Modelled from the spec: the build step of the missing [setInputCloud]:
    every point, in insertion order, is converted by [vectorize] into one
    feature vector of [nr_dimensions_] floats. *)
Fixpoint build_dataset (rep : PointRepresentation) (cloud : list PointT)
  : result (list (list float)) :=
  match cloud with
  | [] => Ok []
  | p :: cloud' =>
      v <-- vectorize copyToFloatArray rep p
              (replicate (Z.to_nat (nr_dimensions_ rep)) zero) ;;
      vs <-- build_dataset rep cloud' ;;
      Ok (v :: vs)
  end.

(** Modelled from the spec: the missing [setInputCloud(cloud, representation)].
    It fails with [InvalidInputError] if the cloud is empty or if
    [nr_dimensions_] is 0, and otherwise builds the dataset and enters the
    Built state. *)
Definition setInputCloud (cloud : list PointT) (rep : PointRepresentation)
  : result (index_error + SpatialIndex) :=
  if vector_empty cloud then Ok (inl InvalidInputError)
  else if nr_dimensions_ rep =? 0 then Ok (inl InvalidInputError)
  else dataset <-- build_dataset rep cloud ;; Ok (inr (Built rep dataset)).

(** Modelled from the spec: the missing [nearestKSearch(queryPoint, k, ...)].
    It requires the Built state (else [NotBuiltError]) and [k > 0] (else
    [InvalidArgumentError]); it converts the query point with [vectorize], asks
    the engine for the [k] nearest neighbours, and returns the indices, the
    squared distances and the count of results written. *)
Definition nearestKSearch (idx : SpatialIndex) (queryPoint : PointT) (k : Z)
  : result (index_error + (list nat * list float * Z)) :=
  match idx with
  | Unbuilt => Ok (inl NotBuiltError)
  | Built rep dataset =>
      if k <=? 0 then Ok (inl InvalidArgumentError)
      else
        qv <-- vectorize copyToFloatArray rep queryPoint
                 (replicate (Z.to_nat (nr_dimensions_ rep)) zero) ;;
        let found := queryKNearest dataset qv (Z.to_nat k) in
        Ok (inr (fst <$> found, snd <$> found, Z.of_nat (length found)))
  end.

End SpatialIndex.

(** ** Notions used to state the properties *)

(** The words of a point, four bytes at a time; trailing bytes that do not
    fill a word are not part of the array. *)
Fixpoint words_of (mem : list byte) : list Z :=
  match mem with
  | b0 :: b1 :: b2 :: b3 :: rest =>
      Z.lor (byte_val b0)
        (Z.lor (Z.shiftl (byte_val b1) 8)
          (Z.lor (Z.shiftl (byte_val b2) 16) (Z.shiftl (byte_val b3) 24)))
      :: words_of rest
  | _ => []
  end.

Definition floats_of (p : PointT) : list float := of_bits <$> words_of p.

(** [src] yields the elements of [vals] from index [i] on. *)
Definition yields {A : Type} (src : nat -> result A) (i : nat) (vals : list A) : Prop :=
  forall j x, vals !! j = Some x -> src (i + j)%nat = Ok x.

(** Conversions that honour the contract of [copyToFloatArray]. *)

Section Contract.

Variable copyToFloatArray : PointRepresentation -> PointT -> scratch -> result scratch.

(** Called on fresh storage of [nr_dimensions_] cells, the conversion returns
    and has written exactly the floats [vals], one per dimension. *)
Definition produces (this : PointRepresentation) (p : PointT) (vals : list float) : Prop :=
  length vals = Z.to_nat (nr_dimensions_ this) /\
  copyToFloatArray this p (replicate (Z.to_nat (nr_dimensions_ this)) None)
  = Ok (Some <$> vals).

(** The conversion is the one the documentation of [trivial_] describes: its
    result is the point reinterpreted as an array of [nr_dimensions_] floats. *)
Definition reinterprets (this : PointRepresentation) (p : PointT) : Prop :=
  produces this p (take (Z.to_nat (nr_dimensions_ this)) (floats_of p)).

(** The conversion does not read [alpha_]. *)
Definition ignores_alpha : Prop :=
  forall this a p out,
    copyToFloatArray
      {| nr_dimensions_ := nr_dimensions_ this; alpha_ := a; trivial_ := trivial_ this |} p out
    = copyToFloatArray this p out.

End Contract.

Definition INT_MAX : Z := 2147483647.

(** A point with coordinates 1.0, NaN and -infinity. *)
Definition point_1_nan_inf : PointT :=
  [x00; x00; x80; x3f;  x00; x00; xc0; x7f;  x00; x00; x80; xff].

(** A call of a public member function, with its arguments. *)
Inductive call : Type :=
  | call_copyToFloatArray (p : PointT) (out : scratch)
  | call_isTrivial
  | call_isValid (p : PointT)
  | call_vectorize (p : PointT) (out : list float)
  | call_setRescaleValues (rescale_array : list float)
  | call_getNumberOfDimensions.

Section Calls.

Variable copyToFloatArray : PointRepresentation -> PointT -> scratch -> result scratch.

(** The object after a call that returns; all member functions but
    [setRescaleValues] are [const]. *)
Definition after_call (this : PointRepresentation) (c : call)
  : result PointRepresentation :=
  match c with
  | call_copyToFloatArray p out => _ <-- copyToFloatArray this p out ;; Ok this
  | call_isTrivial => Ok this
  | call_isValid p => _ <-- isValid copyToFloatArray this p ;; Ok this
  | call_vectorize p out => _ <-- vectorize copyToFloatArray this p out ;; Ok this
  | call_setRescaleValues w => setRescaleValues this w
  | call_getNumberOfDimensions => Ok this
  end.

(** The object after a sequence of calls that all return. *)
Fixpoint after_calls (this : PointRepresentation) (cs : list call)
  : result PointRepresentation :=
  match cs with
  | [] => Ok this
  | c :: cs' => this' <-- after_call this c ;; after_calls this' cs'
  end.

End Calls.

(** [alpha_], if set, has exactly [nr_dimensions_] entries. *)
Definition alpha_sized (this : PointRepresentation) : Prop :=
  alpha_ this = [] \/ length (alpha_ this) = Z.to_nat (nr_dimensions_ this).

(** A squared distance: a non-negative number or +infinity. *)
Definition is_distance (d : float) : bool :=
  match d with
  | S754_zero _ | S754_finite false _ _ | S754_infinity false => true
  | _ => false
  end.

(** The float [x] is not NaN and its sign bit is [s]. *)
Definition has_sign (s : bool) (x : float) : Prop :=
  match x with
  | S754_nan => False
  | S754_zero s' | S754_infinity s' | S754_finite s' _ _ => s' = s
  end.

(** The place of a squared distance in the order of squared distances:
    zero, then the positive numbers by exponent and mantissa, then infinity. *)
Definition rank (d : float) : Z * Z * Z :=
  match d with
  | S754_zero _ => (0, 0, 0)
  | S754_finite _ m e => (1, e, Z.pos m)
  | S754_infinity _ => (2, 0, 0)
  | S754_nan => (3, 0, 0)
  end.

(** [a] comes no later than [b]: by rank, then by index. *)
Definition before (a b : neighbor) : Prop :=
  let '(c1, e1, m1) := rank (snd a) in
  let '(c2, e2, m2) := rank (snd b) in
  c1 < c2 \/
  (c1 = c2 /\ (e1 < e2 \/ (e1 = e2 /\ (m1 < m2 \/ (m1 = m2 /\ (fst a <= fst b)%nat))))).

(** Two neighbours whose distances are numbers are in order. *)
Definition ordered (a b : neighbor) : Prop :=
  is_distance (snd a) = true -> is_distance (snd b) = true -> before a b.

(** What a sum of squares can be: a non-negative number, +infinity or NaN. *)
Definition distance_or_nan (d : float) : Prop := is_distance d = true \/ d = nan.

(** Four points of three floats: (1,0,0), (0,0,0), (2,1,0) and (0,1,0). *)
Definition cloud_of_four : list PointT :=
  [ [x00; x00; x80; x3f;  x00; x00; x00; x00;  x00; x00; x00; x00];
    [x00; x00; x00; x00;  x00; x00; x00; x00;  x00; x00; x00; x00];
    [x00; x00; x00; x40;  x00; x00; x80; x3f;  x00; x00; x00; x00];
    [x00; x00; x00; x00;  x00; x00; x80; x3f;  x00; x00; x00; x00] ].

Definition two : float := S754_finite false 8388608 (-22).

(** Two points of four floats that differ in the fourth float only:
    (1, 2, 0, 1) and (1, 2, 0, NaN). *)
Definition point_1_2_0_1 : PointT :=
  [x00; x00; x80; x3f;  x00; x00; x00; x40;  x00; x00; x00; x00;  x00; x00; x80; x3f].

Definition point_1_2_0_nan : PointT :=
  [x00; x00; x80; x3f;  x00; x00; x00; x40;  x00; x00; x00; x00;  x00; x00; xc0; x7f].

(** * Properties *)

(** ** The monad of outcomes *)

Lemma bind_Ok {A B : Type} (m : result A) (k : A -> result B) (b : B) :
  bind m k = Ok b <-> exists a, m = Ok a /\ k a = Ok b.
Proof.
  destruct m as [a| |]; simpl; split.
  - intros H. exists a. auto.
  - intros (a' & Ha & Hk). injection Ha as ->. exact Hk.
  - discriminate.
  - intros (a' & Ha & _). discriminate.
  - discriminate.
  - intros (a' & Ha & _). discriminate.
Qed.

(** ** The point seen as an array of floats *)

Lemma load_word_words_of (mem : list byte) (i : nat) :
  load_word mem (4 * i) = words_of mem !! i.
Proof.
  revert mem. induction i as [|i IH]; intros mem.
  - destruct mem as [|b0 [|b1 [|b2 [|b3 rest]]]]; reflexivity.
  - replace (4 * S i)%nat with (S (S (S (S (4 * i))))) by lia.
    destruct mem as [|b0 [|b1 [|b2 [|b3 rest]]]]; try reflexivity.
    simpl words_of. rewrite lookup_cons_ne_0 by lia. simpl Nat.pred.
    rewrite <- IH. reflexivity.
Qed.

Lemma load_float_floats_of (p : PointT) (i : nat) :
  load_float p i = of_option (floats_of p !! i).
Proof.
  unfold load_float, floats_of. rewrite load_word_words_of, list_lookup_fmap.
  reflexivity.
Qed.

Lemma length_words_of (mem : list byte) :
  length (words_of mem) = (length mem / 4)%nat.
Proof.
  assert (H : forall n (m : list byte), (length m < n)%nat ->
            length (words_of m) = (length m / 4)%nat).
  { induction n as [|n IH]; intros m Hm; [lia|].
    destruct m as [|b0 [|b1 [|b2 [|b3 rest]]]]; try reflexivity.
    cbn [words_of length]. rewrite IH by (cbn [length] in Hm; lia).
    change (S (S (S (S (length rest))))) with (4 + length rest)%nat.
    replace (4 + length rest)%nat with (length rest + 1 * 4)%nat by lia.
    rewrite Nat.div_add by lia. lia. }
  apply (H (S (length mem))). lia.
Qed.

Lemma length_floats_of (p : PointT) :
  Z.of_nat (length (floats_of p)) = sizeof p / sizeof_float.
Proof.
  unfold floats_of, sizeof, sizeof_float.
  rewrite length_fmap, length_words_of.
  rewrite Nat2Z.inj_div. reflexivity.
Qed.

(** ** The loops *)

Lemma yields_cons {A : Type} (src : nat -> result A) (i : nat) (x : A) (vals : list A) :
  yields src i (x :: vals) -> src i = Ok x /\ yields src (S i) vals.
Proof.
  intros H. split.
  - rewrite <- (Nat.add_0_r i). apply H. reflexivity.
  - intros j y Hj. replace (S i + j)%nat with (i + S j)%nat by lia.
    apply H. exact Hj.
Qed.

Lemma yields_read {A : Type} (a : list A) (n : nat) :
  yields (read a) 0 (take n a).
Proof.
  intros j x Hj. unfold read. change (0 + j)%nat with j.
  apply lookup_take_Some in Hj as [-> _]. reflexivity.
Qed.

Lemma yields_read_cell (vals : list float) :
  yields (read_cell (Some <$> vals)) 0 vals.
Proof.
  intros j x Hj. unfold read_cell. change (0 + j)%nat with j.
  rewrite list_lookup_fmap, Hj. reflexivity.
Qed.

Lemma all_finite_from_spec (rd : nat -> result float) (vals : list float) (i : nat) :
  yields rd i vals ->
  all_finite_from rd i (length vals) = Ok (forallb isfinite vals).
Proof.
  revert i. induction vals as [|x vals IH]; intros i H; [reflexivity|].
  apply yields_cons in H as [Hx H]. simpl. rewrite Hx. simpl.
  destruct (isfinite x); [apply IH; exact H | reflexivity].
Qed.

Lemma copy_from_spec {A : Type} (src : nat -> result A) (vals : list A) (i : nat)
  (dst : list A) :
  yields src i vals ->
  (i + length vals <= length dst)%nat ->
  copy_from src i (length vals) dst
  = Ok (take i dst ++ vals ++ drop (i + length vals) dst).
Proof.
  revert i dst. induction vals as [|x vals IH]; intros i dst H Hlen.
  - simpl. rewrite Nat.add_0_r, take_drop. reflexivity.
  - apply yields_cons in H as [Hx H]. simpl in Hlen. simpl copy_from.
    rewrite Hx. simpl. unfold store.
    destruct (decide (i < length dst)%nat) as [Hi|Hi]; [|lia]. simpl.
    rewrite IH by (rewrite ?length_insert; auto; lia).
    f_equal.
    rewrite (take_S_r _ i x) by (apply list_lookup_insert_eq; exact Hi).
    rewrite take_insert_ge by lia.
    rewrite drop_insert_lt by lia.
    rewrite <- app_assoc. simpl.
    replace (S (i + length vals))%nat with (i + S (length vals))%nat by lia.
    reflexivity.
Qed.

Lemma vectorize_plain_copy (temp : scratch) (i count : nat) (out : list float) :
  vectorize_plain temp i count out = copy_from (read_cell temp) i count out.
Proof.
  revert i out. induction count as [|k IH]; intros i out; [reflexivity|].
  simpl. destruct (read_cell temp i); simpl; try reflexivity.
  destruct (store out i a); simpl; try reflexivity. apply IH.
Qed.

Lemma vectorize_scaled_copy (alpha : list float) (temp : scratch) (i count : nat)
  (out : list float) :
  vectorize_scaled alpha temp i count out
  = copy_from (fun j => x <-- read_cell temp j ;; a <-- read alpha j ;; Ok (mul x a))
      i count out.
Proof.
  revert i out. induction count as [|k IH]; intros i out; [reflexivity|].
  simpl. destruct (read_cell temp i); simpl; try reflexivity.
  destruct (read alpha i); simpl; try reflexivity.
  destruct (store out i _); simpl; try reflexivity. apply IH.
Qed.

Lemma reinterprets_in_bounds cp (this : PointRepresentation) (p : PointT) :
  reinterprets cp this p ->
  (Z.to_nat (nr_dimensions_ this) <= length (floats_of p))%nat.
Proof.
  intros [Hlen _]. rewrite length_take in Hlen. lia.
Qed.

Lemma yields_load_float (p : PointT) (n : nat) :
  yields (load_float p) 0 (take n (floats_of p)).
Proof.
  intros j x Hj. change (0 + j)%nat with j. rewrite load_float_floats_of.
  apply lookup_take_Some in Hj as [-> _]. reflexivity.
Qed.

Lemma forallb_false_lookup {A : Type} (f : A -> bool) (l : list A) :
  forallb f l = false <-> exists i x, l !! i = Some x /\ f x = false.
Proof.
  induction l as [|a l IH]; simpl.
  - split; [discriminate|]. intros (i & x & Hi & _). destruct i; discriminate.
  - rewrite andb_false_iff, IH. split.
    + intros [Ha | (i & x & Hi & Hx)].
      * exists 0%nat, a. auto.
      * exists (S i), x. auto.
    + intros ([|i] & x & Hi & Hx).
      * injection Hi as ->. auto.
      * right. exists i, x. auto.
Qed.

Lemma forallb_true_lookup {A : Type} (f : A -> bool) (l : list A) :
  forallb f l = true <-> forall i x, l !! i = Some x -> f x = true.
Proof.
  induction l as [|a l IH]; simpl.
  - split; [|reflexivity]. intros _ i x Hi. destruct i; discriminate.
  - rewrite andb_true_iff, IH. split.
    + intros [Ha Hl] [|i] x Hi.
      * injection Hi as <-. exact Ha.
      * apply (Hl i x Hi).
    + intros H. split.
      * apply (H 0%nat a). reflexivity.
      * intros i x Hi. apply (H (S i) x). exact Hi.
Qed.

Lemma new_float_array_nonneg (n : Z) :
  0 <= n -> new_float_array n = Ok (replicate (Z.to_nat n) None).
Proof.
  intros Hn. unfold new_float_array.
  destruct (Z.ltb_spec n 0); [lia | reflexivity].
Qed.

Lemma std_copy_nonneg {A : Type} (src : nat -> result A) (n : Z) (dst : list A) :
  0 <= n -> std_copy src n dst = copy_from src 0 (Z.to_nat n) dst.
Proof.
  intros Hn. unfold std_copy.
  destruct (Z.ltb_spec n 0); [lia | reflexivity].
Qed.

(** A full conversion followed by the finiteness loop. *)
Lemma isValid_full_spec cp (this : PointRepresentation) (p : PointT) (vals : list float) :
  0 <= nr_dimensions_ this ->
  produces cp this p vals ->
  isValid_full cp this p = Ok (forallb isfinite vals).
Proof.
  intros Hn [Hlen Hcp]. unfold isValid_full.
  rewrite new_float_array_nonneg by exact Hn. simpl.
  rewrite Hcp. simpl. rewrite <- Hlen.
  apply all_finite_from_spec, yields_read_cell.
Qed.

(** The loop over the memory of the point. *)
Lemma isValid_fast_spec (this : PointRepresentation) (p : PointT) :
  (Z.to_nat (nr_dimensions_ this) <= length (floats_of p))%nat ->
  isValid_fast this p
  = Ok (forallb isfinite (take (Z.to_nat (nr_dimensions_ this)) (floats_of p))).
Proof.
  intros Hb. unfold isValid_fast.
  set (n := Z.to_nat (nr_dimensions_ this)) in *.
  rewrite <- (all_finite_from_spec (load_float p) (take n (floats_of p)) 0).
  - rewrite length_take. f_equal. lia.
  - apply yields_load_float.
Qed.

Lemma produces_unique cp (this : PointRepresentation) (p : PointT) (u v : list float) :
  produces cp this p u -> produces cp this p v -> u = v.
Proof.
  intros [_ Hu] [_ Hv]. rewrite Hu in Hv. injection Hv as Hv. clear Hu.
  revert v Hv. induction u as [|x u IH]; intros [|y v] Hv; try discriminate.
  - reflexivity.
  - injection Hv as -> Hv. f_equal. apply IH. exact Hv.
Qed.

(** ** DefaultPointRepresentation honours the contract *)

Lemma Default_copyToFloatArray_reinterprets (this : PointRepresentation) (p : PointT) :
  0 <= nr_dimensions_ this ->
  (Z.to_nat (nr_dimensions_ this) <= length (floats_of p))%nat ->
  reinterprets DefaultPointRepresentation.copyToFloatArray this p.
Proof.
  intros Hn Hb. unfold reinterprets, produces.
  set (n := Z.to_nat (nr_dimensions_ this)) in *.
  assert (Hlen : length (take n (floats_of p)) = n) by (rewrite length_take; lia).
  split; [exact Hlen|].
  unfold DefaultPointRepresentation.copyToFloatArray.
  rewrite std_copy_nonneg by exact Hn. fold n.
  replace n with (length (Some <$> take n (floats_of p))) at 1
    by (rewrite length_fmap; exact Hlen).
  rewrite copy_from_spec.
  - rewrite length_fmap, Hlen. simpl.
    rewrite drop_ge by (rewrite length_replicate; lia).
    rewrite app_nil_r. reflexivity.
  - intros j x Hj. change (0 + j)%nat with j.
    rewrite list_lookup_fmap in Hj.
    destruct (take n (floats_of p) !! j) as [y|] eqn:Hy; [|discriminate].
    injection Hj as <-. pose proof (yields_load_float p n j y Hy) as E.
    change (0 + j)%nat with j in E. rewrite E. reflexivity.
  - rewrite length_fmap, Hlen, length_replicate. lia.
Qed.

Lemma Default_copyToFloatArray_ignores_alpha :
  ignores_alpha DefaultPointRepresentation.copyToFloatArray.
Proof. intros this a p out. reflexivity. Qed.

Lemma int_of_size_t_small (z : Z) :
  0 <= z <= INT_MAX -> DefaultPointRepresentation.int_of_size_t z = z.
Proof.
  unfold INT_MAX, DefaultPointRepresentation.int_of_size_t. intros Hz.
  rewrite Z.mod_small by lia. lia.
Qed.

Lemma ctor_nr_dimensions (sz : Z) :
  0 <= sz -> sz / sizeof_float <= INT_MAX ->
  nr_dimensions_ (DefaultPointRepresentation.ctor sz) = Z.min (sz / sizeof_float) 3.
Proof.
  intros Hsz Hmax. unfold DefaultPointRepresentation.ctor. cbn [nr_dimensions_].
  assert (0 <= sz / sizeof_float) by (apply Z.div_pos; unfold sizeof_float; lia).
  rewrite int_of_size_t_small by lia.
  destruct (Z.gtb_spec (sz / sizeof_float) 3); lia.
Qed.

(** Beyond that range the conversion to [int] wraps: for a type of 8 GiB the
    quotient is 2^31 and [nr_dimensions_] becomes [INT_MIN]. *)
Example ctor_8_GiB :
  nr_dimensions_ (DefaultPointRepresentation.ctor 8589934592) = -2147483648.
Proof. reflexivity. Qed.

(** The default representation of a point type never reads outside a point
    of that type. *)
Lemma ctor_in_bounds (p : PointT) :
  sizeof p / sizeof_float <= INT_MAX ->
  0 <= nr_dimensions_ (DefaultPointRepresentation.ctor (sizeof p)) /\
  (Z.to_nat (nr_dimensions_ (DefaultPointRepresentation.ctor (sizeof p)))
   <= length (floats_of p))%nat.
Proof.
  intros Hmax.
  assert (0 <= sizeof p) by (unfold sizeof; lia).
  rewrite ctor_nr_dimensions by assumption.
  pose proof (length_floats_of p) as Hl.
  assert (0 <= sizeof p / sizeof_float) by (apply Z.div_pos; unfold sizeof_float; lia).
  split; lia.
Qed.

(** ** isValid *)

(** C4. [isValid(p)] returns, and it returns false if and only if one of the
    [nr_dimensions_] floats that the conversion of [p] produces is not finite
    (so it returns true when all of them are finite).  The representation has
    a non-negative number of dimensions, its conversion writes one float per
    dimension, and a representation flagged [trivial_] is one whose conversion
    is the reinterpretation of the point, as the documentation of that flag
    requires. *)
Theorem isValid_false_iff_not_finite cp (this : PointRepresentation) (p : PointT)
  (vals : list float) :
  0 <= nr_dimensions_ this ->
  produces cp this p vals ->
  (trivial_ this = true -> reinterprets cp this p) ->
  exists b, isValid cp this p = Ok b /\
    (b = false <-> exists i x, vals !! i = Some x /\ isfinite x = false) /\
    (b = true <-> forall i x, vals !! i = Some x -> isfinite x = true).
Proof.
  intros Hn Hvals Htriv. exists (forallb isfinite vals). split; [|split].
  - unfold isValid. destruct (trivial_ this) eqn:Ht.
    + specialize (Htriv eq_refl).
      rewrite isValid_fast_spec by (eapply reinterprets_in_bounds; exact Htriv).
      rewrite (produces_unique cp this p _ _ Hvals Htriv). reflexivity.
    + apply isValid_full_spec; assumption.
  - apply forallb_false_lookup.
  - apply forallb_true_lookup.
Qed.

Lemma isValid_false_iff_not_finite_witness :
  exists b,
    isValid DefaultPointRepresentation.copyToFloatArray
      (DefaultPointRepresentation.ctor 12) point_1_nan_inf = Ok b /\
    (b = false <->
     exists i x, [one; nan; S754_infinity true] !! i = Some x /\ isfinite x = false) /\
    (b = true <->
     forall i x, [one; nan; S754_infinity true] !! i = Some x -> isfinite x = true).
Proof.
  apply (isValid_false_iff_not_finite DefaultPointRepresentation.copyToFloatArray
           (DefaultPointRepresentation.ctor 12) point_1_nan_inf
           [one; nan; S754_infinity true]).
  - vm_compute. discriminate.
  - split; reflexivity.
  - intros _. split; reflexivity.
Defined.

(** C1. For a representation that is trivial (the flag is set, no rescale
    weights are stored, and the conversion is the reinterpretation of the
    point as [nr_dimensions_] floats), the loop over the memory of the point
    and the loop over a full conversion into scratch storage both return, with
    the same boolean, which is also the result of [isValid]; the coordinates
    may hold NaN or infinities. *)
Theorem isValid_fast_full_agree cp (this : PointRepresentation) (p : PointT) :
  isTrivial this = true ->
  0 <= nr_dimensions_ this ->
  reinterprets cp this p ->
  exists b, isValid_fast this p = Ok b /\ isValid_full cp this p = Ok b /\
            isValid cp this p = Ok b.
Proof.
  intros Htriv Hn Hre.
  exists (forallb isfinite (take (Z.to_nat (nr_dimensions_ this)) (floats_of p))).
  assert (Hfast : isValid_fast this p
                  = Ok (forallb isfinite (take (Z.to_nat (nr_dimensions_ this)) (floats_of p)))).
  { apply isValid_fast_spec. eapply reinterprets_in_bounds. exact Hre. }
  split; [exact Hfast|]. split.
  - apply isValid_full_spec; assumption.
  - unfold isValid. unfold isTrivial in Htriv.
    apply andb_true_iff in Htriv as [-> _]. exact Hfast.
Qed.

Lemma isValid_fast_full_agree_witness :
  exists b,
    isValid_fast (DefaultPointRepresentation.ctor 12) point_1_nan_inf = Ok b /\
    isValid_full DefaultPointRepresentation.copyToFloatArray
      (DefaultPointRepresentation.ctor 12) point_1_nan_inf = Ok b /\
    isValid DefaultPointRepresentation.copyToFloatArray
      (DefaultPointRepresentation.ctor 12) point_1_nan_inf = Ok b.
Proof.
  apply (isValid_fast_full_agree DefaultPointRepresentation.copyToFloatArray
           (DefaultPointRepresentation.ctor 12) point_1_nan_inf).
  - reflexivity.
  - vm_compute. discriminate.
  - split; reflexivity.
Defined.

(** For a default representation the floats produced are the leading floats
    of the point. *)
Lemma Default_isValid (p : PointT) :
  sizeof p / sizeof_float <= INT_MAX ->
  isValid DefaultPointRepresentation.copyToFloatArray
    (DefaultPointRepresentation.ctor (sizeof p)) p
  = Ok (forallb isfinite
          (take (Z.to_nat (nr_dimensions_ (DefaultPointRepresentation.ctor (sizeof p))))
             (floats_of p))).
Proof.
  intros Hmax. destruct (ctor_in_bounds p Hmax) as [Hn Hb].
  unfold isValid. cbn [trivial_ DefaultPointRepresentation.ctor].
  apply isValid_fast_spec. exact Hb.
Qed.

(** The two branches of [isValid] agree for every default representation of a
    point type, on every point of that type. *)
Lemma Default_isValid_fast_full_agree (p : PointT) :
  sizeof p / sizeof_float <= INT_MAX ->
  isValid_fast (DefaultPointRepresentation.ctor (sizeof p)) p
  = isValid_full DefaultPointRepresentation.copyToFloatArray
      (DefaultPointRepresentation.ctor (sizeof p)) p.
Proof.
  intros Hmax. destruct (ctor_in_bounds p Hmax) as [Hn Hb].
  rewrite isValid_fast_spec by exact Hb. symmetry.
  apply isValid_full_spec; [exact Hn|].
  apply Default_copyToFloatArray_reinterprets; assumption.
Qed.

(** ** vectorize *)

(** The contents of [out] after [vectorize]. *)
Lemma vectorize_closed_form cp (this : PointRepresentation) (p : PointT)
  (vals out : list float) :
  0 <= nr_dimensions_ this ->
  produces cp this p vals ->
  (Z.to_nat (nr_dimensions_ this) <= length out)%nat ->
  (alpha_ this <> [] -> length (alpha_ this) = Z.to_nat (nr_dimensions_ this)) ->
  vectorize cp this p out
  = Ok ((if vector_empty (alpha_ this) then vals
         else zip_with mul vals (alpha_ this))
        ++ drop (Z.to_nat (nr_dimensions_ this)) out).
Proof.
  intros Hn [Hlen Hcp] Hout Halpha. unfold vectorize.
  rewrite new_float_array_nonneg by exact Hn. simpl.
  rewrite Hcp. simpl.
  set (n := Z.to_nat (nr_dimensions_ this)) in *.
  destruct (alpha_ this) as [|a0 alpha] eqn:Ea; cbn [vector_empty].
  - rewrite vectorize_plain_copy. rewrite <- Hlen.
    rewrite copy_from_spec.
    + reflexivity.
    + apply yields_read_cell.
    + simpl. lia.
  - specialize (Halpha ltac:(discriminate)).
    rewrite vectorize_scaled_copy.
    assert (Hz : length (zip_with mul vals (a0 :: alpha)) = n)
      by (rewrite length_zip_with; lia).
    rewrite <- Hz at 1. rewrite copy_from_spec.
    + rewrite Hz. reflexivity.
    + intros j y Hj. change (0 + j)%nat with j.
      apply lookup_zip_with_Some in Hj as (x & a & -> & Hx & Ha).
      unfold read_cell, read. rewrite list_lookup_fmap, Hx, Ha. reflexivity.
    + rewrite Hz. simpl. lia.
Qed.

(** C3. For an output buffer of at least [nr_dimensions_] elements,
    [vectorize(p, out)] returns and has written, for every [i] below
    [nr_dimensions_], [out[i] = temp[i] * alpha_[i]] when rescale weights are
    stored and [out[i] = temp[i]] when none are, where [temp] holds the floats
    that [copyToFloatArray] produces for [p]; the rest of [out] is untouched. *)
Theorem vectorize_writes cp (this : PointRepresentation) (p : PointT)
  (vals out : list float) :
  0 <= nr_dimensions_ this ->
  produces cp this p vals ->
  (Z.to_nat (nr_dimensions_ this) <= length out)%nat ->
  (alpha_ this <> [] -> length (alpha_ this) = Z.to_nat (nr_dimensions_ this)) ->
  exists out',
    vectorize cp this p out = Ok out' /\
    (forall i, (i < Z.to_nat (nr_dimensions_ this))%nat ->
       exists x, vals !! i = Some x /\
         if vector_empty (alpha_ this)
         then out' !! i = Some x
         else exists a, alpha_ this !! i = Some a /\ out' !! i = Some (mul x a)) /\
    (forall i, (Z.to_nat (nr_dimensions_ this) <= i)%nat -> out' !! i = out !! i).
Proof.
  intros Hn Hvals Hout Halpha.
  rewrite (vectorize_closed_form cp this p vals out Hn Hvals Hout Halpha).
  destruct Hvals as [Hlen _].
  set (n := Z.to_nat (nr_dimensions_ this)) in *.
  eexists. split; [reflexivity|]. split.
  - intros i Hi.
    destruct (lookup_lt_is_Some_2 vals i) as [x Hx]; [lia|].
    exists x. split; [exact Hx|].
    destruct (alpha_ this) as [|a0 alpha] eqn:Ea; cbn [vector_empty].
    + rewrite lookup_app_l by lia. exact Hx.
    + specialize (Halpha ltac:(discriminate)).
      destruct (lookup_lt_is_Some_2 (a0 :: alpha) i) as [a Ha]; [lia|].
      exists a. split; [exact Ha|].
      rewrite lookup_app_l by (rewrite length_zip_with; lia).
      apply lookup_zip_with_Some. exists x, a. auto.
  - intros i Hi.
    assert (Hl : length (if vector_empty (alpha_ this) then vals
                         else zip_with mul vals (alpha_ this)) = n).
    { destruct (alpha_ this) as [|a0 alpha] eqn:Ea; cbn [vector_empty]; [exact Hlen|].
      specialize (Halpha ltac:(discriminate)). rewrite length_zip_with. lia. }
    rewrite lookup_app_r by lia. rewrite Hl, lookup_drop. f_equal. lia.
Qed.

Lemma vectorize_writes_witness :
  exists out',
    vectorize DefaultPointRepresentation.copyToFloatArray
      {| nr_dimensions_ := 3; alpha_ := [one; zero; one]; trivial_ := true |}
      point_1_nan_inf [zero; zero; zero; nan] = Ok out' /\
    (forall i, (i < 3)%nat ->
       exists x, [one; nan; S754_infinity true] !! i = Some x /\
         exists a, [one; zero; one] !! i = Some a /\ out' !! i = Some (mul x a)) /\
    (forall i, (3 <= i)%nat -> out' !! i = [zero; zero; zero; nan] !! i).
Proof.
  apply (vectorize_writes DefaultPointRepresentation.copyToFloatArray
           {| nr_dimensions_ := 3; alpha_ := [one; zero; one]; trivial_ := true |}
           point_1_nan_inf [one; nan; S754_infinity true] [zero; zero; zero; nan]).
  - vm_compute. discriminate.
  - split; reflexivity.
  - simpl. lia.
  - intros _. reflexivity.
Defined.

(** ** setRescaleValues and the length of alpha_ *)

Lemma copy_from_length {A : Type} (src : nat -> result A) (i count : nat)
  (dst dst' : list A) :
  copy_from src i count dst = Ok dst' -> length dst' = length dst.
Proof.
  revert i dst. induction count as [|k IH]; intros i dst H; simpl in H.
  - injection H as <-. reflexivity.
  - apply bind_Ok in H as (x & _ & H1).
    apply bind_Ok in H1 as (d & Hd & H2).
    apply IH in H2. rewrite H2. unfold store in Hd.
    destruct (decide (i < length dst)%nat); [|discriminate].
    injection Hd as <-. apply length_insert.
Qed.

Lemma vector_resize_nonneg (v : list float) (n : Z) :
  0 <= n ->
  exists a, vector_resize v n = Ok a /\ length a = Z.to_nat n.
Proof.
  intros Hn. unfold vector_resize.
  destruct (Z.ltb_spec n 0); [lia|].
  eexists. split; [reflexivity|].
  rewrite length_app, length_take, length_replicate. lia.
Qed.

Lemma vector_resize_Ok (v a : list float) (n : Z) :
  vector_resize v n = Ok a -> 0 <= n /\ length a = Z.to_nat n.
Proof.
  unfold vector_resize. destruct (Z.ltb_spec n 0) as [Hlt|Hge]; [discriminate|].
  intros E. injection E as <-. split; [exact Hge|].
  rewrite length_app, length_take, length_replicate. lia.
Qed.

(** The object after a call of [setRescaleValues] with an array of at least
    [nr_dimensions_] weights. *)
Lemma setRescaleValues_spec (this : PointRepresentation) (w : list float) :
  0 <= nr_dimensions_ this ->
  (Z.to_nat (nr_dimensions_ this) <= length w)%nat ->
  setRescaleValues this w
  = Ok {| nr_dimensions_ := nr_dimensions_ this;
          alpha_ := take (Z.to_nat (nr_dimensions_ this)) w;
          trivial_ := trivial_ this |}.
Proof.
  intros Hn Hw. unfold setRescaleValues.
  destruct (vector_resize_nonneg (alpha_ this) _ Hn) as (a & -> & Ha). simpl.
  rewrite std_copy_nonneg by exact Hn.
  set (n := Z.to_nat (nr_dimensions_ this)) in *.
  assert (Hl : length (take n w) = n) by (rewrite length_take; lia).
  rewrite <- Hl at 1. rewrite copy_from_spec.
  - simpl. rewrite Hl, drop_ge by lia. rewrite app_nil_r. reflexivity.
  - apply yields_read.
  - rewrite Hl. simpl. lia.
Qed.

Lemma setRescaleValues_Ok (this this' : PointRepresentation) (w : list float) :
  setRescaleValues this w = Ok this' ->
  nr_dimensions_ this' = nr_dimensions_ this /\
  trivial_ this' = trivial_ this /\
  length (alpha_ this') = Z.to_nat (nr_dimensions_ this).
Proof.
  unfold setRescaleValues. intros H.
  apply bind_Ok in H as (a & Ha & H1).
  apply bind_Ok in H1 as (a' & Ha' & H2).
  injection H2 as <-. simpl.
  apply vector_resize_Ok in Ha as [Hn Ha].
  rewrite std_copy_nonneg in Ha' by exact Hn.
  apply copy_from_length in Ha'. repeat split. congruence.
Qed.

Lemma after_call_alpha_sized cp (this this' : PointRepresentation) (c : call) :
  alpha_sized this -> after_call cp this c = Ok this' -> alpha_sized this'.
Proof.
  intros Hinv H. destruct c; simpl in H;
    try (injection H as <-; exact Hinv);
    try (apply bind_Ok in H as (? & _ & H1); injection H1 as <-; exact Hinv).
  apply setRescaleValues_Ok in H as (Hn & _ & Hl).
  right. rewrite Hn. exact Hl.
Qed.

Lemma after_calls_alpha_sized cp (cs : list call) (this this' : PointRepresentation) :
  alpha_sized this -> after_calls cp this cs = Ok this' -> alpha_sized this'.
Proof.
  revert this. induction cs as [|c cs IH]; intros this Hinv H; simpl in H.
  - injection H as <-. exact Hinv.
  - apply bind_Ok in H as (this1 & H1 & H2).
    eapply IH; [|exact H2]. eapply after_call_alpha_sized; eassumption.
Qed.

Lemma ctor_alpha_sized (sz : Z) : alpha_sized (DefaultPointRepresentation.ctor sz).
Proof. left. reflexivity. Qed.

(** C6. A call of [setRescaleValues(weights)] on an array of at least
    [nr_dimensions_] weights returns and leaves in [alpha_] exactly
    [nr_dimensions_] entries, the first [nr_dimensions_] entries of [weights];
    and along every sequence of calls of the member functions (repeated calls of
    [setRescaleValues] included) [alpha_], once set, keeps exactly
    [nr_dimensions_] entries. *)
Theorem setRescaleValues_alpha cp (this : PointRepresentation) (weights : list float) :
  0 <= nr_dimensions_ this ->
  (Z.to_nat (nr_dimensions_ this) <= length weights)%nat ->
  (exists this',
     setRescaleValues this weights = Ok this' /\
     alpha_ this' = take (Z.to_nat (nr_dimensions_ this)) weights /\
     length (alpha_ this') = Z.to_nat (nr_dimensions_ this') /\
     nr_dimensions_ this' = nr_dimensions_ this) /\
  (forall (cs : list call) (this0 this1 : PointRepresentation),
     alpha_sized this0 -> after_calls cp this0 cs = Ok this1 -> alpha_sized this1).
Proof.
  intros Hn Hw. split.
  - eexists. split; [apply setRescaleValues_spec; assumption|].
    simpl. rewrite length_take. repeat split. lia.
  - intros cs this0 this1. apply after_calls_alpha_sized.
Qed.

Lemma setRescaleValues_alpha_witness :
  (exists this',
     setRescaleValues (DefaultPointRepresentation.ctor 12) [one; zero; one; nan]
     = Ok this' /\
     alpha_ this' = [one; zero; one] /\
     length (alpha_ this') = Z.to_nat (nr_dimensions_ this') /\
     nr_dimensions_ this' = 3) /\
  (forall (cs : list call) (this0 this1 : PointRepresentation),
     alpha_sized this0 ->
     after_calls DefaultPointRepresentation.copyToFloatArray this0 cs = Ok this1 ->
     alpha_sized this1).
Proof.
  apply (setRescaleValues_alpha DefaultPointRepresentation.copyToFloatArray
           (DefaultPointRepresentation.ctor 12) [one; zero; one; nan]).
  - vm_compute. discriminate.
  - vm_compute. lia.
Defined.

(** ** isValid and the rescale weights *)

Lemma isValid_alpha cp (this : PointRepresentation) (a : list float) (p : PointT) :
  ignores_alpha cp ->
  isValid cp {| nr_dimensions_ := nr_dimensions_ this; alpha_ := a;
                trivial_ := trivial_ this |} p
  = isValid cp this p.
Proof.
  intros Hcp.
  assert (Hfull : isValid_full cp {| nr_dimensions_ := nr_dimensions_ this; alpha_ := a;
                                     trivial_ := trivial_ this |} p
                  = isValid_full cp this p).
  { unfold isValid_full. cbn [nr_dimensions_].
    destruct (new_float_array (nr_dimensions_ this)) as [temp| |]; simpl; try reflexivity.
    rewrite Hcp. reflexivity. }
  unfold isValid. rewrite Hfull. reflexivity.
Qed.

(** C10. The weights do not influence [isValid]: after a call of
    [setRescaleValues(w)], which returns and leaves [trivial_] as it was,
    [isValid(p)] has the outcome it has without that call.  The conversion is
    one that does not read [alpha_], as the one of the default
    representation. *)
Theorem isValid_rescale_independent cp (this : PointRepresentation)
  (w : list float) (p : PointT) :
  ignores_alpha cp ->
  0 <= nr_dimensions_ this ->
  (Z.to_nat (nr_dimensions_ this) <= length w)%nat ->
  exists this',
    setRescaleValues this w = Ok this' /\
    trivial_ this' = trivial_ this /\
    isValid cp this' p = isValid cp this p.
Proof.
  intros Hcp Hn Hw. eexists. split; [apply setRescaleValues_spec; assumption|].
  split; [reflexivity|]. apply isValid_alpha. exact Hcp.
Qed.

Lemma isValid_rescale_independent_witness :
  exists this',
    setRescaleValues (DefaultPointRepresentation.ctor 12) [zero; nan; one] = Ok this' /\
    trivial_ this' = trivial_ (DefaultPointRepresentation.ctor 12) /\
    isValid DefaultPointRepresentation.copyToFloatArray this' point_1_nan_inf
    = isValid DefaultPointRepresentation.copyToFloatArray
        (DefaultPointRepresentation.ctor 12) point_1_nan_inf.
Proof.
  apply (isValid_rescale_independent DefaultPointRepresentation.copyToFloatArray
           (DefaultPointRepresentation.ctor 12) [zero; nan; one] point_1_nan_inf).
  - intros this a p out. reflexivity.
  - vm_compute. discriminate.
  - vm_compute. lia.
Defined.

(** ** isTrivial *)

Lemma vector_empty_true {A : Type} (v : list A) : vector_empty v = true <-> v = [].
Proof. destruct v; simpl; split; congruence. Qed.

(** [isTrivial()] is true exactly when the flag is set and [alpha_] is
    empty. *)
Lemma isTrivial_iff (this : PointRepresentation) :
  isTrivial this = true <-> trivial_ this = true /\ alpha_ this = [].
Proof.
  unfold isTrivial. rewrite andb_true_iff, vector_empty_true. reflexivity.
Qed.

(** With at least one dimension, [isTrivial()] is false after
    [setRescaleValues], whatever the flag. *)
Lemma isTrivial_after_setRescaleValues (this : PointRepresentation) (w : list float) :
  0 < nr_dimensions_ this ->
  (Z.to_nat (nr_dimensions_ this) <= length w)%nat ->
  exists this', setRescaleValues this w = Ok this' /\ isTrivial this' = false.
Proof.
  intros Hn Hw. eexists. split; [apply setRescaleValues_spec; [lia|exact Hw]|].
  unfold isTrivial. cbn [alpha_ trivial_].
  destruct (take (Z.to_nat (nr_dimensions_ this)) w) as [|x l] eqn:E.
  - apply (f_equal length) in E. rewrite length_take in E. simpl in E. lia.
  - apply andb_false_r.
Qed.

(** With no dimension, [setRescaleValues] leaves [alpha_] empty. *)
Lemma setRescaleValues_no_dimensions (this : PointRepresentation) (w : list float) :
  nr_dimensions_ this = 0 ->
  alpha_ this = [] ->
  setRescaleValues this w = Ok this.
Proof.
  intros Hn Ha. rewrite setRescaleValues_spec by (rewrite Hn; simpl; lia).
  destruct this as [n a t]. cbn [nr_dimensions_ alpha_ trivial_] in *.
  subst n a. reflexivity.
Qed.

(** C2, at a representation without dimensions.  The default representation
    of a one-byte point type has [nr_dimensions_ = 0]; a call of
    [setRescaleValues] resizes [alpha_] to no entry, so that [isTrivial()]
    still returns true after it. *)
Theorem isTrivial_true_after_setRescaleValues :
  nr_dimensions_ (DefaultPointRepresentation.ctor 1) = 0 /\
  exists this',
    setRescaleValues (DefaultPointRepresentation.ctor 1) [one] = Ok this' /\
    alpha_ this' = [] /\
    isTrivial this' = true.
Proof.
  split; [reflexivity|]. eexists. split; [reflexivity|]. split; reflexivity.
Qed.

(** ** The constructor of DefaultPointRepresentation *)





(** ** binary32 arithmetic *)

Lemma digits2_pos_bounds (p : positive) :
  2 ^ (Z.pos (digits2_pos p) - 1) <= Z.pos p < 2 ^ Z.pos (digits2_pos p).
Proof.
  induction p as [p IH|p IH|]; cbn [digits2_pos].
  - rewrite Pos2Z.inj_succ, Z.pow_succ_r by lia.
    replace (Z.succ (Z.pos (digits2_pos p)) - 1) with (Z.succ (Z.pos (digits2_pos p) - 1)) by lia.
    rewrite Z.pow_succ_r by lia. lia.
  - rewrite Pos2Z.inj_succ, Z.pow_succ_r by lia.
    replace (Z.succ (Z.pos (digits2_pos p)) - 1) with (Z.succ (Z.pos (digits2_pos p) - 1)) by lia.
    rewrite Z.pow_succ_r by lia. lia.
  - simpl. lia.
Qed.

Lemma digits2_pos_le (p : positive) (k : Z) :
  0 <= k -> Z.pos p < 2 ^ k -> Z.pos (digits2_pos p) <= k.
Proof.
  intros Hk Hp. destruct (Z.le_gt_cases (Z.pos (digits2_pos p)) k) as [H|H]; [exact H|].
  pose proof (digits2_pos_bounds p) as [Hlo _].
  assert (2 ^ k <= 2 ^ (Z.pos (digits2_pos p) - 1)) by (apply Z.pow_le_mono_r; lia).
  lia.
Qed.

Lemma digits2_pos_gt (p : positive) (k : Z) :
  2 ^ k <= Z.pos p -> k < Z.pos (digits2_pos p).
Proof.
  intros Hp. destruct (Z.lt_ge_cases k (Z.pos (digits2_pos p))) as [H|H]; [exact H|].
  pose proof (digits2_pos_bounds p) as [_ Hhi].
  assert (2 ^ Z.pos (digits2_pos p) <= 2 ^ k) by (apply Z.pow_le_mono_r; lia).
  lia.
Qed.

(** Every bit pattern decodes to a binary32 number. *)
Lemma of_bits_binary32 (w : Z) : is_binary32 (of_bits w).
Proof.
  unfold is_binary32, of_bits.
  change (Z.land w 8388607) with (Z.land w (Z.ones 23)).
  change (Z.land (Z.shiftr w 23) 255) with (Z.land (Z.shiftr w 23) (Z.ones 8)).
  rewrite !Z.land_ones by lia.
  pose proof (Z.mod_pos_bound w (2 ^ 23) ltac:(lia)) as Hm.
  pose proof (Z.mod_pos_bound (Z.shiftr w 23) (2 ^ 8) ltac:(lia)) as He.
  set (m := w mod 2 ^ 23) in *. set (e := Z.shiftr w 23 mod 2 ^ 8) in *.
  destruct (Z.eqb_spec e 0) as [E0|E0].
  - destruct m as [|p|p] eqn:Em; try reflexivity.
    cbn [valid_binary]. unfold bounded, canonical_mantissa, fexp, emin, prec, emax.
    pose proof (digits2_pos_le p 23 ltac:(lia) ltac:(lia)).
    apply andb_true_iff. split; [apply Z.eqb_eq | apply Z.leb_le]; lia.
  - destruct (Z.eqb_spec e 255) as [E1|E1].
    + destruct (m =? 0); reflexivity.
    + destruct (m + 8388608) as [|p|p] eqn:Em; try reflexivity.
      cbn [valid_binary]. unfold bounded, canonical_mantissa, fexp, emin, prec, emax.
      pose proof (digits2_pos_le p 24 ltac:(lia) ltac:(lia)).
      pose proof (digits2_pos_gt p 23 ltac:(lia)).
      change (2 ^ 8) with 256 in He.
      apply andb_true_iff. split; [apply Z.eqb_eq | apply Z.leb_le]; lia.
Qed.

Lemma floats_of_binary32 (p : PointT) : Forall is_binary32 (floats_of p).
Proof.
  unfold floats_of. apply Forall_fmap, Forall_forall. intros w _.
  apply of_bits_binary32.
Qed.

(** [x * 1.0f] is [x], for every binary32 number [x]; for a NaN the product
    is a NaN, which is all that [spec_float] records of it. *)
Lemma mul_one_r (x : float) : is_binary32 x -> mul x one = x.
Proof.
  unfold is_binary32. destruct x as [s|s| |s m e]; simpl; intros Hx.
  - destruct s; reflexivity.
  - destruct s; reflexivity.
  - reflexivity.
  - unfold bounded, canonical_mantissa, fexp, emin in Hx.
    apply andb_true_iff in Hx as [Hc He].
    apply Z.eqb_eq in Hc. apply Z.leb_le in He.
    unfold mul, one, SFmul. rewrite xorb_false_r, Pos.mul_comm.
    change (8388608 * m)%positive
      with (m~0~0~0~0~0~0~0~0~0~0~0~0~0~0~0~0~0~0~0~0~0~0~0)%positive.
    unfold binary_round_aux.
    assert (H1 : shr_fexp prec emax
                   (Z.pos m~0~0~0~0~0~0~0~0~0~0~0~0~0~0~0~0~0~0~0~0~0~0~0)
                   (e + -23) loc_Exact
                 = ({| shr_m := Z.pos m; shr_r := false; shr_s := false |}, e)).
    { unfold shr_fexp, fexp, emin, Zdigits2. cbn [digits2_pos].
      rewrite !Pos2Z.inj_succ.
      replace (Z.max _ _ - (e + -23)) with 23 by (unfold prec, emax in *; lia).
      unfold shr. simpl. f_equal. lia. }
    rewrite H1. cbn [shr_m loc_of_shr_record round_nearest_even].
    assert (H2 : shr_fexp prec emax (Z.pos m) e loc_Exact
                 = ({| shr_m := Z.pos m; shr_r := false; shr_s := false |}, e)).
    { unfold shr_fexp, fexp, emin, Zdigits2.
      replace (Z.max _ _ - e) with 0 by (unfold prec, emax in *; lia).
      reflexivity. }
    rewrite H2. cbn [shr_m].
    destruct (Z.leb_spec e (emax - prec)); [reflexivity|lia].
Qed.

Lemma zip_with_mul_ones (vals w : list float) :
  Forall is_binary32 vals ->
  Forall (fun a => a = one) w ->
  (length vals <= length w)%nat ->
  zip_with mul vals w = vals.
Proof.
  intros Hv. revert w. induction Hv as [|x vals Hx Hv IH]; intros w Hw Hlen.
  - reflexivity.
  - destruct Hw as [|a w Ha Hw]; simpl in Hlen; [lia|].
    simpl. subst a. rewrite mul_one_r by exact Hx. f_equal.
    apply IH; [exact Hw | lia].
Qed.

(** ** Weights that are all 1.0 *)

(** Storing weights that are all 1.0 does not change what [vectorize]
    writes, as IEEE values: where a coordinate is a NaN both outputs hold a
    NaN, whose payload is not recorded. *)
Lemma vectorize_unit_weights cp (this : PointRepresentation) (w : list float)
  (p : PointT) (vals out : list float) :
  ignores_alpha cp ->
  0 <= nr_dimensions_ this ->
  alpha_ this = [] ->
  produces cp this p vals ->
  Forall is_binary32 vals ->
  Forall (fun a => a = one) w ->
  (Z.to_nat (nr_dimensions_ this) <= length w)%nat ->
  (Z.to_nat (nr_dimensions_ this) <= length out)%nat ->
  exists this',
    setRescaleValues this w = Ok this' /\
    vectorize cp this' p out = vectorize cp this p out /\
    vectorize cp this p out = Ok (vals ++ drop (Z.to_nat (nr_dimensions_ this)) out).
Proof.
  intros Hcp Hn Ha Hvals Hbin Hw Hlw Hout.
  eexists. split; [apply setRescaleValues_spec; assumption|].
  set (n := Z.to_nat (nr_dimensions_ this)) in *.
  assert (Hthis : vectorize cp this p out = Ok (vals ++ drop n out)).
  { rewrite (vectorize_closed_form cp this p vals out Hn Hvals Hout)
      by (intros E; congruence).
    rewrite Ha. reflexivity. }
  split; [|exact Hthis]. rewrite Hthis.
  assert (Hvals' : produces cp
            {| nr_dimensions_ := nr_dimensions_ this; alpha_ := take n w;
               trivial_ := trivial_ this |} p vals).
  { destruct Hvals as [Hl Hc]. split; [exact Hl|].
    cbn [nr_dimensions_]. rewrite Hcp. exact Hc. }
  rewrite (vectorize_closed_form cp
             {| nr_dimensions_ := nr_dimensions_ this; alpha_ := take n w;
                trivial_ := trivial_ this |} p vals out Hn Hvals' Hout)
    by (intros _; cbn [alpha_ nr_dimensions_]; rewrite length_take; lia).
  cbn [alpha_ nr_dimensions_]. fold n. destruct Hvals as [Hl _].
  destruct (take n w) as [|a l] eqn:E; cbn [vector_empty]; [reflexivity|].
  rewrite <- E. rewrite zip_with_mul_ones; [reflexivity|exact Hbin| |].
  - apply Forall_take. exact Hw.
  - rewrite length_take. lia.
Qed.

(** For the default representation of a point type, on every point of that
    type, as IEEE values (a NaN coordinate gives a NaN in both outputs). *)
Lemma Default_vectorize_unit_weights (p : PointT) (w out : list float) :
  sizeof p / sizeof_float <= INT_MAX ->
  Forall (fun a => a = one) w ->
  (3 <= length w)%nat ->
  (3 <= length out)%nat ->
  exists this',
    setRescaleValues (DefaultPointRepresentation.ctor (sizeof p)) w = Ok this' /\
    vectorize DefaultPointRepresentation.copyToFloatArray this' p out
    = vectorize DefaultPointRepresentation.copyToFloatArray
        (DefaultPointRepresentation.ctor (sizeof p)) p out.
Proof.
  intros Hmax Hw Hlw Hout. destruct (ctor_in_bounds p Hmax) as [Hn Hb].
  assert (Hn3 : nr_dimensions_ (DefaultPointRepresentation.ctor (sizeof p)) <= 3).
  { rewrite ctor_nr_dimensions by first [assumption | unfold sizeof; lia]. lia. }
  destruct (vectorize_unit_weights DefaultPointRepresentation.copyToFloatArray
              (DefaultPointRepresentation.ctor (sizeof p)) w p
              (take (Z.to_nat (nr_dimensions_ (DefaultPointRepresentation.ctor (sizeof p))))
                 (floats_of p)) out)
    as (this' & Hs & Hv & _); try assumption; try lia.
  - apply Default_copyToFloatArray_ignores_alpha.
  - reflexivity.
  - apply Default_copyToFloatArray_reinterprets; assumption.
  - apply Forall_take, floats_of_binary32.
  - exists this'. auto.
Qed.

(** C7, at a representation without dimensions.  For the default
    representation of a one-byte point type, [isTrivial()] returns true before
    the weights are set and still returns true after a call of
    [setRescaleValues] with weights 1.0; [vectorize] writes the same (nothing)
    before and after. *)
Theorem unit_weights_no_dimensions :
  isTrivial (DefaultPointRepresentation.ctor 1) = true /\
  exists this',
    setRescaleValues (DefaultPointRepresentation.ctor 1) [one; one; one] = Ok this' /\
    isTrivial this' = true /\
    forall (p : PointT) (out : list float),
      vectorize DefaultPointRepresentation.copyToFloatArray this' p out
      = vectorize DefaultPointRepresentation.copyToFloatArray
          (DefaultPointRepresentation.ctor 1) p out.
Proof.
  split; [reflexivity|]. eexists. split; [reflexivity|]. split; reflexivity.
Qed.

(** ** Squared distances *)

Lemma shr_1_nonneg (mrs : shr_record) : 0 <= shr_m mrs -> 0 <= shr_m (shr_1 mrs).
Proof.
  destruct mrs as [m r s]. simpl. destruct m as [|p|p]; [| |lia].
  - simpl. lia.
  - destruct p; simpl; lia.
Qed.

Lemma iter_pos_shr_1_nonneg (p : positive) (mrs : shr_record) :
  0 <= shr_m mrs -> 0 <= shr_m (SpecFloat.iter_pos shr_1 p mrs).
Proof.
  revert mrs. induction p as [p IH|p IH|]; intros mrs H; simpl.
  - apply IH, IH, shr_1_nonneg, H.
  - apply IH, IH, H.
  - apply shr_1_nonneg, H.
Qed.

Lemma shr_fexp_nonneg (m e : Z) (l : location) :
  0 <= m -> 0 <= shr_m (fst (shr_fexp prec emax m e l)).
Proof.
  intros Hm. unfold shr_fexp, shr.
  assert (H0 : 0 <= shr_m (shr_record_of_loc m l))
    by (destruct l as [|[| |]]; exact Hm).
  destruct (fexp prec emax (Zdigits2 m + e) - e); simpl; try exact H0.
  apply iter_pos_shr_1_nonneg, H0.
Qed.

Lemma round_nearest_even_nonneg (m : Z) (l : location) :
  0 <= m -> 0 <= round_nearest_even m l.
Proof.
  intros Hm. destruct l as [|[| |]]; simpl; try lia.
  destruct (Z.even m); lia.
Qed.

Lemma binary_round_aux_sign (s : bool) (m e : Z) (l : location) :
  0 <= m -> has_sign s (binary_round_aux prec emax s m e l).
Proof.
  intros Hm. unfold binary_round_aux.
  pose proof (shr_fexp_nonneg m e l Hm) as H1.
  destruct (shr_fexp prec emax m e l) as [mrs' e']. simpl in H1.
  pose proof (shr_fexp_nonneg _ e' loc_Exact
                (round_nearest_even_nonneg _ (loc_of_shr_record mrs') H1)) as H2.
  destruct (shr_fexp prec emax _ e' loc_Exact) as [mrs'' e'']. simpl in H2.
  destruct (shr_m mrs'') as [|p|p]; [reflexivity| |lia].
  destruct (e'' <=? emax - prec); reflexivity.
Qed.

Lemma binary_round_sign (s : bool) (m : positive) (e : Z) :
  has_sign s (binary_round prec emax s m e).
Proof.
  unfold binary_round. destruct (shl_align _ _ _) as [mz ez].
  apply binary_round_aux_sign. lia.
Qed.

Lemma binary_normalize_not_nan (m e : Z) (sz : bool) :
  binary_normalize prec emax m e sz <> S754_nan.
Proof.
  destruct m as [|p|p]; simpl; [discriminate| |].
  - pose proof (binary_round_sign false p e) as H. intros E. rewrite E in H. exact H.
  - pose proof (binary_round_sign true p e) as H. intros E. rewrite E in H. exact H.
Qed.

Lemma sub_finite_not_nan (x y : float) :
  isfinite x = true -> isfinite y = true -> sub x y <> nan.
Proof.
  destruct x as [sx|sx| |sx mx ex], y as [sy|sy| |sy my ey]; try discriminate;
    intros _ _; unfold sub, nan; cbn [SFsub].
  - destruct sx, sy; discriminate.
  - apply binary_normalize_not_nan.
Qed.

Lemma mul_self_is_distance (d : float) : d <> nan -> is_distance (mul d d) = true.
Proof.
  destruct d as [s|s| |s m e]; intros Hd.
  - simpl. reflexivity.
  - simpl. destruct s; reflexivity.
  - contradiction.
  - unfold mul, SFmul.
    pose proof (binary_round_aux_sign (xorb s s) (Z.pos (m * m)) (e + e) loc_Exact
                  ltac:(lia)) as H.
    rewrite xorb_nilpotent in *.
    destruct (binary_round_aux _ _ _ _ _ _) as [s'|s'| |s' m' e']; simpl in *;
      try contradiction; subst; reflexivity.
Qed.

Lemma add_is_distance (x y : float) :
  is_distance x = true -> is_distance y = true -> is_distance (add x y) = true.
Proof.
  destruct x as [sx|[|]| |[|] mx ex], y as [sy|[|]| |[|] my ey]; try discriminate;
    intros _ _; try reflexivity.
  - unfold add; simpl. destruct sx, sy; reflexivity.
  - unfold add, SFadd. cbn [cond_Zopp].
    set (ez := Z.min ex ey).
    destruct (shl_align mx ex ez) as [mx' ex'], (shl_align my ey ez) as [my' ey'].
    cbn [fst]. change (Z.pos mx' + Z.pos my') with (Z.pos (mx' + my')).
    cbn [binary_normalize].
    pose proof (binary_round_sign false (mx' + my') ez) as H.
    destruct (binary_round _ _ _ _ _) as [s'|s'| |s' m' e']; simpl in *;
      try contradiction; subst; reflexivity.
Qed.

(** Between vectors of finite coordinates the squared distance is a number
    or +infinity. *)
Lemma squared_distance_is_distance (a b : list float) :
  Forall (fun x => isfinite x = true) a ->
  Forall (fun x => isfinite x = true) b ->
  is_distance (squared_distance a b) = true.
Proof.
  intros Ha. revert b. induction Ha as [|x a Hx Ha IH]; intros b Hb.
  - reflexivity.
  - destruct Hb as [|y b Hy Hb]; [reflexivity|].
    cbn [squared_distance]. apply add_is_distance.
    + apply mul_self_is_distance, sub_finite_not_nan; assumption.
    + apply IH. exact Hb.
Qed.

Lemma add_nan_r (x : float) : add x nan = nan.
Proof. destruct x; reflexivity. Qed.

(** Between any two vectors it is a number, +infinity or NaN, never
    negative. *)
Lemma squared_distance_distance_or_nan (a b : list float) :
  distance_or_nan (squared_distance a b).
Proof.
  revert b. induction a as [|x a IH]; intros b.
  - left. reflexivity.
  - destruct b as [|y b]; [left; reflexivity|].
    cbn [squared_distance].
    destruct (sub x y) as [s|s| |s m e] eqn:Ed.
    3: { right. reflexivity. }
    all: destruct (IH b) as [Hr|Hr];
      [ left; apply add_is_distance;
          [apply mul_self_is_distance; discriminate | exact Hr]
      | right; rewrite Hr; apply add_nan_r ].
Qed.

(** ** The order of the neighbours *)

Lemma before_trans (a b c : neighbor) : before a b -> before b c -> before a c.
Proof.
  unfold before. destruct (rank (snd a)) as [[c1 e1] m1], (rank (snd b)) as [[c2 e2] m2],
    (rank (snd c)) as [[c3 e3] m3]. lia.
Qed.

Lemma before_total (a b : neighbor) : before a b \/ before b a.
Proof.
  unfold before. destruct (rank (snd a)) as [[c1 e1] m1], (rank (snd b)) as [[c2 e2] m2].
  lia.
Qed.

Lemma closer_before (a b : neighbor) :
  is_distance (snd a) = true -> is_distance (snd b) = true ->
  closer a b = true <-> before a b.
Proof.
  destruct a as [i x], b as [j y]. unfold closer, before. cbn [fst snd].
  unfold SFltb, SFeqb.
  destruct x as [sx|[|]| |[|] mx ex], y as [sy|[|]| |[|] my ey]; try discriminate;
    intros _ _; cbn [SFcompare rank orb andb].
  - destruct (Nat.leb_spec i j); split; try lia; discriminate.
  - split; [lia|reflexivity].
  - split; [lia|reflexivity].
  - split; [discriminate|lia].
  - destruct (Nat.leb_spec i j); split; try lia; discriminate.
  - split; [discriminate|lia].
  - split; [discriminate|lia].
  - split; [lia|reflexivity].
  - change (Pos.compare_cont Eq mx my) with (mx ?= my)%positive.
    destruct (Z.compare_spec ex ey) as [E|E|E].
    + destruct (Pos.compare_spec mx my) as [M|M|M]; cbn [orb andb].
      * subst. destruct (Nat.leb_spec i j); split; try lia; discriminate.
      * split; [lia|reflexivity].
      * split; [discriminate|lia].
    + split; [lia|reflexivity].
    + split; [discriminate|lia].
Qed.

Lemma before_leb (a b : neighbor) :
  is_distance (snd a) = true -> is_distance (snd b) = true ->
  before a b ->
  SFleb (snd a) (snd b) = true /\
  (SFeqb (snd a) (snd b) = true -> (fst a <= fst b)%nat).
Proof.
  destruct a as [i x], b as [j y]. unfold before. cbn [fst snd].
  unfold SFleb, SFeqb.
  destruct x as [sx|[|]| |[|] mx ex], y as [sy|[|]| |[|] my ey]; try discriminate;
    intros _ _; cbn [SFcompare rank]; intros H;
    try (split; [reflexivity | first [discriminate | lia]]);
    try lia.
  change (Pos.compare_cont Eq mx my) with (mx ?= my)%positive.
  destruct (Z.compare_spec ex ey) as [E|E|E];
    [destruct (Pos.compare_spec mx my) as [M|M|M]| |];
    first [lia | split; [reflexivity | first [discriminate | lia]]].
Qed.

(** The comparisons of the Standard Library agree with each other: what is
    below or equal is not strictly above. *)
Lemma SFleb_not_SFltb (x y : float) : SFleb x y = true -> SFltb y x = false.
Proof.
  unfold SFleb, SFltb.
  destruct x as [sx|[|]| |[|] mx ex], y as [sy|[|]| |[|] my ey];
    cbn [SFcompare]; try reflexivity; try discriminate;
    try (destruct sx; reflexivity || discriminate);
    try (destruct sy; reflexivity || discriminate).
  - rewrite (Z.compare_antisym ey ex).
    change (Pos.compare_cont Eq mx my) with (mx ?= my)%positive.
    change (Pos.compare_cont Eq my mx) with (my ?= mx)%positive.
    rewrite (Pos.compare_antisym my mx).
    destruct (ey ?= ex); cbn [CompOpp]; try reflexivity; try discriminate.
    destruct (my ?= mx)%positive; cbn [CompOpp]; reflexivity || discriminate.
  - rewrite (Z.compare_antisym ey ex).
    change (Pos.compare_cont Eq mx my) with (mx ?= my)%positive.
    change (Pos.compare_cont Eq my mx) with (my ?= mx)%positive.
    rewrite (Pos.compare_antisym my mx).
    destruct (ey ?= ex); cbn [CompOpp]; try reflexivity; try discriminate.
    destruct (my ?= mx)%positive; cbn [CompOpp]; reflexivity || discriminate.
Qed.

Lemma SFltb_nan_l (x : float) : SFltb nan x = false.
Proof. reflexivity. Qed.

Lemma SFltb_nan_r (x : float) : SFltb x nan = false.
Proof. destruct x; reflexivity. Qed.

Lemma SFeqb_not_nan (x y : float) : SFeqb x y = true -> x <> nan /\ y <> nan.
Proof.
  destruct x, y; try discriminate; intros _; split; discriminate.
Qed.

Lemma closer_not_nan (a b : neighbor) :
  closer a b = true -> snd a <> nan /\ snd b <> nan.
Proof.
  destruct a as [i x], b as [j y]. unfold closer. cbn [fst snd].
  destruct x, y; try discriminate; intros _; split; discriminate.
Qed.

Lemma distance_or_nan_not_nan (d : float) :
  distance_or_nan d -> d <> nan -> is_distance d = true.
Proof. intros [H|H] Hn; [exact H|contradiction]. Qed.

Lemma insert_neighbor_perm (x : neighbor) (l : list neighbor) :
  insert_neighbor x l ≡ₚ x :: l.
Proof.
  induction l as [|y l IH]; simpl; [reflexivity|].
  destruct (closer x y); [reflexivity|].
  rewrite IH. apply Permutation_swap.
Qed.

Lemma sort_neighbors_perm (l : list neighbor) : sort_neighbors l ≡ₚ l.
Proof.
  induction l as [|x l IH]; simpl; [reflexivity|].
  rewrite insert_neighbor_perm, IH. reflexivity.
Qed.

Lemma insert_neighbor_sorted (x : neighbor) (l : list neighbor) :
  distance_or_nan (snd x) ->
  Forall (fun y => distance_or_nan (snd y)) l ->
  StronglySorted ordered l ->
  StronglySorted ordered (insert_neighbor x l).
Proof.
  intros Hx Hl Hs. induction Hs as [|y l Hs IH Hy]; simpl.
  - repeat constructor.
  - apply Forall_cons in Hl as [Hdy Hl].
    destruct (closer x y) eqn:E.
    + destruct (closer_not_nan x y E) as [Hnx Hny].
      pose proof (distance_or_nan_not_nan _ Hx Hnx) as Dx.
      pose proof (distance_or_nan_not_nan _ Hdy Hny) as Dy.
      apply closer_before in E; [|assumption..].
      constructor; [constructor; assumption|].
      constructor; [intros _ _; exact E|].
      eapply Forall_impl; [exact Hy|]. intros z Hz _ Dz.
      eapply before_trans; [exact E|]. apply Hz; assumption.
    + assert (Hyx : ordered y x).
      { intros Dy Dx. destruct (before_total x y) as [H|H]; [|exact H].
        apply closer_before in H; [congruence|assumption..]. }
      constructor; [apply IH; exact Hl|].
      rewrite insert_neighbor_perm. constructor; assumption.
Qed.

Lemma sort_neighbors_sorted (l : list neighbor) :
  Forall (fun y => distance_or_nan (snd y)) l ->
  StronglySorted ordered (sort_neighbors l).
Proof.
  induction 1 as [|x l Hx Hl IH]; simpl; [constructor|].
  apply insert_neighbor_sorted; [exact Hx| |exact IH].
  rewrite sort_neighbors_perm. exact Hl.
Qed.

Lemma StronglySorted_lookup {A : Type} (R : A -> A -> Prop) (l : list A)
  (i j : nat) (a b : A) :
  StronglySorted R l -> (i < j)%nat -> l !! i = Some a -> l !! j = Some b -> R a b.
Proof.
  intros Hs. revert i j. induction Hs as [|x l Hs IH Hx]; intros i j Hij Hi Hj.
  - discriminate.
  - destruct j as [|j]; [lia|]. simpl in Hj. destruct i as [|i].
    + injection Hi as <-. rewrite Forall_forall in Hx. apply Hx.
      eapply list_elem_of_lookup_2. exact Hj.
    + simpl in Hi. apply (IH i j); [lia|assumption..].
Qed.

(** ** The spatial index *)

Lemma build_dataset_length cp (rep : PointRepresentation) (cloud : list PointT)
  (dataset : list (list float)) :
  build_dataset cp rep cloud = Ok dataset -> length dataset = length cloud.
Proof.
  revert dataset. induction cloud as [|p cloud IH]; intros dataset H; simpl in H.
  - injection H as <-. reflexivity.
  - apply bind_Ok in H as (v & _ & H1). apply bind_Ok in H1 as (vs & Hvs & H2).
    injection H2 as <-. simpl. f_equal. apply IH. exact Hvs.
Qed.

Lemma setInputCloud_Built cp (cloud : list PointT) (rep : PointRepresentation)
  (idx : SpatialIndex) :
  setInputCloud cp cloud rep = Ok (inr idx) ->
  exists dataset,
    idx = Built rep dataset /\ length dataset = length cloud /\
    (1 <= length cloud)%nat /\ nr_dimensions_ rep <> 0.
Proof.
  unfold setInputCloud. destruct cloud as [|p cloud]; [discriminate|].
  cbn [vector_empty]. destruct (Z.eqb_spec (nr_dimensions_ rep) 0) as [E|E]; [discriminate|].
  intros H. apply bind_Ok in H as (dataset & Hd & H1). injection H1 as <-.
  exists dataset. split; [reflexivity|]. split; [|split; [simpl; lia|exact E]].
  eapply build_dataset_length. exact Hd.
Qed.

(** The neighbours of a query among the vectors of a dataset. *)
Lemma candidates_fst (dataset : list (list float)) (q : list float) :
  fst <$> imap (fun i v => (i, squared_distance q v)) dataset
  = seq 0 (length dataset).
Proof.
  rewrite fmap_imap.
  rewrite (imap_ext _ (fun j _ => id j)) by reflexivity.
  rewrite imap_seq_0. apply list_fmap_id.
Qed.

Lemma candidates_lookup (dataset : list (list float)) (q : list float) (a : neighbor) :
  a ∈ imap (fun i v => (i, squared_distance q v)) dataset ->
  exists v, dataset !! (fst a) = Some v /\ snd a = squared_distance q v.
Proof.
  intros H. apply elem_of_lookup_imap_1 in H as (i & v & -> & Hv).
  exists v. auto.
Qed.

Lemma queryKNearest_spec (dataset : list (list float)) (q : list float) (k : nat) :
  let found := queryKNearest dataset q k in
  length found = Nat.min k (length dataset) /\
  NoDup (fst <$> found) /\
  (forall a, a ∈ found ->
     exists v, dataset !! (fst a) = Some v /\ snd a = squared_distance q v) /\
  (forall i j a b, (i < j)%nat -> found !! i = Some a -> found !! j = Some b ->
     SFltb (snd b) (snd a) = false /\
     (snd a <> nan -> snd b <> nan -> SFleb (snd a) (snd b) = true) /\
     (SFeqb (snd a) (snd b) = true -> (fst a < fst b)%nat)).
Proof.
  intros found. unfold queryKNearest in found.
  set (pairs := imap (fun i v => (i, squared_distance q v)) dataset) in *.
  assert (Hperm : sort_neighbors pairs ≡ₚ pairs) by apply sort_neighbors_perm.
  assert (Hin : forall a, a ∈ pairs ->
            exists v, dataset !! (fst a) = Some v /\ snd a = squared_distance q v)
    by (intros a; apply candidates_lookup).
  assert (Hgood : Forall (fun y => distance_or_nan (snd y)) pairs).
  { apply Forall_forall. intros a Ha. destruct (Hin a Ha) as (v & Hv & ->).
    apply squared_distance_distance_or_nan. }
  assert (Hsorted : StronglySorted ordered (sort_neighbors pairs))
    by (apply sort_neighbors_sorted; exact Hgood).
  assert (Hnd : NoDup (fst <$> sort_neighbors pairs)).
  { rewrite Hperm. unfold pairs. rewrite candidates_fst. apply NoDup_seq. }
  assert (Hsub : forall a, a ∈ found -> a ∈ pairs).
  { intros a Ha. rewrite <- Hperm. apply elem_of_take in Ha as (i & Hi & _).
    eapply list_elem_of_lookup_2. exact Hi. }
  split; [|split; [|split]].
  - unfold found. rewrite length_take, Hperm. unfold pairs. rewrite length_imap. lia.
  - unfold found. rewrite fmap_take.
    eapply sublist_NoDup; [exact Hnd|apply sublist_take].
  - intros a Ha. apply Hin, Hsub, Ha.
  - intros i j a b Hij Hi Hj.
    assert (Ha : distance_or_nan (snd a)).
    { eapply (Forall_forall (fun y => distance_or_nan (snd y))); [exact Hgood|].
      apply Hsub. eapply list_elem_of_lookup_2. exact Hi. }
    assert (Hb : distance_or_nan (snd b)).
    { eapply (Forall_forall (fun y => distance_or_nan (snd y))); [exact Hgood|].
      apply Hsub. eapply list_elem_of_lookup_2. exact Hj. }
    unfold found in Hi, Hj.
    apply lookup_take_Some in Hi as [Hi _]. apply lookup_take_Some in Hj as [Hj _].
    pose proof (StronglySorted_lookup ordered _ i j a b Hsorted Hij Hi Hj) as Hab.
    assert (Hnum : snd a <> nan -> snd b <> nan ->
                   SFleb (snd a) (snd b) = true /\
                   (SFeqb (snd a) (snd b) = true -> (fst a <= fst b)%nat)).
    { intros Hna Hnb. apply before_leb.
      - apply distance_or_nan_not_nan; assumption.
      - apply distance_or_nan_not_nan; assumption.
      - apply Hab; apply distance_or_nan_not_nan; assumption. }
    split; [|split].
    + destruct Ha as [Da|Na]; [|rewrite Na; apply SFltb_nan_r].
      destruct Hb as [Db|Nb]; [|rewrite Nb; apply SFltb_nan_l].
      apply SFleb_not_SFltb, Hnum; intros E; rewrite E in *; discriminate.
    + intros Hna Hnb. apply Hnum; assumption.
    + intros Heq. destruct (SFeqb_not_nan _ _ Heq) as [Hna Hnb].
      destruct (Hnum Hna Hnb) as [_ Htie]. specialize (Htie Heq).
      assert (fst a <> fst b); [|lia].
      intros Efst.
      assert (i = j); [|lia].
      eapply (NoDup_lookup (fst <$> sort_neighbors pairs) i j (fst a)); [exact Hnd| |].
      * rewrite list_lookup_fmap, Hi. reflexivity.
      * rewrite list_lookup_fmap, Hj, Efst. reflexivity.
Qed.

(** C8.  On an index built by [setInputCloud] over a cloud of [N] points (so
    [N >= 1]) and for [k >= 1], [nearestKSearch(q, k)] returns exactly
    [min(k, N)] results and their count; the indices have no duplicates; the
    results are in non-decreasing order of squared distance (no result is
    strictly closer than one before it, and an earlier distance is below or
    equal to a later one whenever both are numbers rather than NaN), and of two
    results at the same distance the one with the smaller point index comes
    first; each distance is the squared Euclidean distance between the query
    vector and the vector of the point. *)
Theorem nearestKSearch_results cp (cloud : list PointT) (rep : PointRepresentation)
  (dataset : list (list float)) (q : PointT) (qv : list float) (k : Z) :
  setInputCloud cp cloud rep = Ok (inr (Built rep dataset)) ->
  1 <= k ->
  vectorize cp rep q (replicate (Z.to_nat (nr_dimensions_ rep)) zero) = Ok qv ->
  exists (indices : list nat) (dists : list float) (count : Z),
    nearestKSearch cp (Built rep dataset) q k = Ok (inr (indices, dists, count)) /\
    (1 <= length cloud)%nat /\
    length indices = Nat.min (Z.to_nat k) (length cloud) /\
    length dists = length indices /\
    count = Z.of_nat (length indices) /\
    NoDup indices /\
    (forall i j ii ij di dj, (i < j)%nat ->
       indices !! i = Some ii -> indices !! j = Some ij ->
       dists !! i = Some di -> dists !! j = Some dj ->
       SFltb dj di = false /\
       (di <> nan -> dj <> nan -> SFleb di dj = true) /\
       (SFeqb di dj = true -> (ii < ij)%nat)) /\
    (forall i ii di, indices !! i = Some ii -> dists !! i = Some di ->
       exists v, dataset !! ii = Some v /\ di = squared_distance qv v).
Proof.
  intros Hbuilt Hk Hqv.
  apply setInputCloud_Built in Hbuilt as (ds & Hds & Hlen & HN & Hn).
  injection Hds as <-.
  destruct (queryKNearest_spec dataset qv (Z.to_nat k))
    as (Hl & Hnd & Hdist & Hord).
  set (found := queryKNearest dataset qv (Z.to_nat k)) in *.
  exists (fst <$> found), (snd <$> found), (Z.of_nat (length found)).
  split.
  { unfold nearestKSearch. destruct (Z.leb_spec k 0); [lia|].
    rewrite Hqv. reflexivity. }
  rewrite !length_fmap.
  split; [exact HN|].
  split; [rewrite Hl, Hlen; reflexivity|].
  split; [reflexivity|]. split; [reflexivity|]. split; [exact Hnd|]. split.
  - intros i j ii ij di dj Hij Hii Hij' Hdi Hdj.
    rewrite list_lookup_fmap in Hii. rewrite list_lookup_fmap in Hij'.
    rewrite list_lookup_fmap in Hdi. rewrite list_lookup_fmap in Hdj.
    destruct (found !! i) as [a|] eqn:Ea; [|discriminate].
    destruct (found !! j) as [b|] eqn:Eb; [|discriminate].
    simpl in *. injection Hii as <-. injection Hij' as <-.
    injection Hdi as <-. injection Hdj as <-.
    apply (Hord i j a b Hij Ea Eb).
  - intros i ii di Hii Hdi.
    rewrite list_lookup_fmap in Hii. rewrite list_lookup_fmap in Hdi.
    destruct (found !! i) as [a|] eqn:Ea; [|discriminate].
    simpl in *. injection Hii as <-. injection Hdi as <-.
    apply Hdist. eapply list_elem_of_lookup_2. exact Ea.
Qed.

Lemma nearestKSearch_results_witness :
  exists (indices : list nat) (dists : list float) (count : Z),
    nearestKSearch DefaultPointRepresentation.copyToFloatArray
      (Built (DefaultPointRepresentation.ctor 12)
         [[one; zero; zero]; [zero; zero; zero]; [two; one; zero]; [zero; one; zero]])
      [x00; x00; x00; x00;  x00; x00; x00; x00;  x00; x00; x00; x00] 3
    = Ok (inr (indices, dists, count)) /\
    (1 <= length cloud_of_four)%nat /\
    length indices = Nat.min (Z.to_nat 3) (length cloud_of_four) /\
    length dists = length indices /\
    count = Z.of_nat (length indices) /\
    NoDup indices /\
    (forall i j ii ij di dj, (i < j)%nat ->
       indices !! i = Some ii -> indices !! j = Some ij ->
       dists !! i = Some di -> dists !! j = Some dj ->
       SFltb dj di = false /\
       (di <> nan -> dj <> nan -> SFleb di dj = true) /\
       (SFeqb di dj = true -> (ii < ij)%nat)) /\
    (forall i ii di, indices !! i = Some ii -> dists !! i = Some di ->
       exists v,
         [[one; zero; zero]; [zero; zero; zero]; [two; one; zero]; [zero; one; zero]]
           !! ii = Some v /\
         di = squared_distance [zero; zero; zero] v).
Proof.
  apply (nearestKSearch_results DefaultPointRepresentation.copyToFloatArray
           cloud_of_four (DefaultPointRepresentation.ctor 12)
           [[one; zero; zero]; [zero; zero; zero]; [two; one; zero]; [zero; one; zero]]
           [x00; x00; x00; x00;  x00; x00; x00; x00;  x00; x00; x00; x00]
           [zero; zero; zero] 3).
  - reflexivity.
  - lia.
  - reflexivity.
Defined.

(** The search of the example returns the points 1, 0 and 3, at squared
    distances 0, 1 and 1. *)
Example nearestKSearch_cloud_of_four :
  nearestKSearch DefaultPointRepresentation.copyToFloatArray
    (Built (DefaultPointRepresentation.ctor 12)
       [[one; zero; zero]; [zero; zero; zero]; [two; one; zero]; [zero; one; zero]])
    [x00; x00; x00; x00;  x00; x00; x00; x00;  x00; x00; x00; x00] 3
  = Ok (inr ([1; 0; 3]%nat, [zero; one; one], 3)).
Proof. reflexivity. Qed.

(** C9.  [setInputCloud] on an empty cloud returns [InvalidInputError], and
    so it does when the representation has [nr_dimensions_] equal to 0; no
    Built index results. *)
Theorem setInputCloud_invalid_input cp (cloud : list PointT) (rep : PointRepresentation) :
  cloud = [] \/ nr_dimensions_ rep = 0 ->
  setInputCloud cp cloud rep = Ok (inl InvalidInputError).
Proof.
  intros [-> | Hn]; [reflexivity|].
  unfold setInputCloud. rewrite Hn. destruct (vector_empty cloud); reflexivity.
Qed.

Lemma setInputCloud_invalid_input_witness :
  setInputCloud DefaultPointRepresentation.copyToFloatArray cloud_of_four
    (DefaultPointRepresentation.ctor 1)
  = Ok (inl InvalidInputError).
Proof.
  apply (setInputCloud_invalid_input DefaultPointRepresentation.copyToFloatArray
           cloud_of_four (DefaultPointRepresentation.ctor 1)).
  right. reflexivity.
Defined.

Example setInputCloud_empty_cloud :
  setInputCloud DefaultPointRepresentation.copyToFloatArray []
    (DefaultPointRepresentation.ctor 12)
  = Ok (inl InvalidInputError).
Proof. reflexivity. Qed.

(** * Further properties of the point representations *)

(** ** Shared lemmas *)

(** A copy into a destination that is too short writes out of bounds. *)
Lemma copy_from_short {A : Type} (src : nat -> result A) (vals : list A) (i : nat)
  (dst : list A) :
  yields src i vals ->
  (i <= length dst)%nat ->
  (length dst < i + length vals)%nat ->
  copy_from src i (length vals) dst = Undefined.
Proof.
  revert i dst. induction vals as [|x vals IH]; intros i dst H Hi Hlen.
  - simpl in Hlen. lia.
  - apply yields_cons in H as [Hx H]. simpl in Hlen. simpl copy_from.
    rewrite Hx. simpl. unfold store.
    destruct (decide (i < length dst)%nat) as [Hlt|Hge]; [|reflexivity].
    simpl. apply IH; rewrite ?length_insert; [exact H|lia|lia].
Qed.

(** A copy from a source that is too short reads out of bounds. *)
Lemma copy_from_source_short {A : Type} (src : nat -> result A) (vals : list A)
  (i count : nat) (dst : list A) :
  yields src i vals ->
  src (i + length vals)%nat = Undefined ->
  (length vals < count)%nat ->
  (i + length vals <= length dst)%nat ->
  copy_from src i count dst = Undefined.
Proof.
  revert i count dst. induction vals as [|x vals IH]; intros i count dst H Hend Hc Hlen.
  - simpl in *. rewrite Nat.add_0_r in Hend.
    destruct count as [|k]; [lia|]. simpl. rewrite Hend. reflexivity.
  - apply yields_cons in H as [Hx H]. simpl in Hlen, Hc.
    destruct count as [|k]; [lia|]. simpl copy_from.
    rewrite Hx. simpl. unfold store.
    destruct (decide (i < length dst)%nat) as [Hlt|Hge]; [|lia].
    simpl. apply IH; rewrite ?length_insert; [exact H| |lia|lia].
    replace (S i + length vals)%nat with (i + length (x :: vals))%nat by (simpl; lia).
    exact Hend.
Qed.

Lemma yields_read_all {A : Type} (a : list A) : yields (read a) 0 a.
Proof. intros j x Hj. unfold read. change (0 + j)%nat with j. rewrite Hj. reflexivity. Qed.

(** The outcome of [isValid] under the contract of the conversion. *)
Lemma isValid_forallb cp (this : PointRepresentation) (p : PointT) (vals : list float) :
  0 <= nr_dimensions_ this ->
  produces cp this p vals ->
  (trivial_ this = true -> reinterprets cp this p) ->
  isValid cp this p = Ok (forallb isfinite vals).
Proof.
  intros Hn Hvals Htriv. unfold isValid. destruct (trivial_ this) eqn:Ht.
  - specialize (Htriv eq_refl).
    rewrite isValid_fast_spec by (eapply reinterprets_in_bounds; exact Htriv).
    rewrite (produces_unique cp this p _ _ Hvals Htriv). reflexivity.
  - apply isValid_full_spec; assumption.
Qed.

Lemma vector_empty_take {A : Type} (w : list A) (n : nat) :
  (n <= length w)%nat -> vector_empty (take n w) = (n =? 0)%nat.
Proof.
  intros Hn. destruct n as [|n]; [reflexivity|].
  destruct w as [|x w]; [simpl in Hn; lia|reflexivity].
Qed.

(** A float that is not finite stays so when it is multiplied. *)
Lemma mul_not_finite (x a : float) : isfinite x = false -> isfinite (mul x a) = false.
Proof.
  destruct x as [s|s| |s m e]; try discriminate; intros _.
  - destruct a; reflexivity.
  - reflexivity.
Qed.

(** The first [n] words of a memory area are the words of its first [4 n]
    bytes. *)
Lemma words_of_take (mem : list byte) (n : nat) :
  take n (words_of mem) = words_of (take (4 * n) mem).
Proof.
  revert mem. induction n as [|n IH]; intros mem.
  - simpl. destruct (words_of mem); reflexivity.
  - replace (4 * S n)%nat with (S (S (S (S (4 * n))))) by lia.
    destruct mem as [|b0 [|b1 [|b2 [|b3 rest]]]]; try reflexivity.
    cbn [words_of take]. rewrite IH. reflexivity.
Qed.

Lemma floats_of_take (p : PointT) (n : nat) :
  take n (floats_of p) = floats_of (take (4 * n) p).
Proof.
  unfold floats_of. rewrite <- fmap_take, words_of_take. reflexivity.
Qed.

Lemma floats_of_in_bounds (p : PointT) (n : nat) :
  (4 * n <= length p)%nat -> (n <= length (floats_of p))%nat.
Proof.
  intros H. unfold floats_of. rewrite length_fmap, length_words_of.
  apply Nat.div_le_lower_bound; lia.
Qed.

(** The default conversion into a buffer that already holds something. *)
Lemma Default_copyToFloatArray_into (this : PointRepresentation) (p : PointT)
  (out : scratch) :
  0 <= nr_dimensions_ this ->
  (Z.to_nat (nr_dimensions_ this) <= length (floats_of p))%nat ->
  (Z.to_nat (nr_dimensions_ this) <= length out)%nat ->
  DefaultPointRepresentation.copyToFloatArray this p out
  = Ok ((Some <$> take (Z.to_nat (nr_dimensions_ this)) (floats_of p))
        ++ drop (Z.to_nat (nr_dimensions_ this)) out).
Proof.
  intros Hn Hb Hout. unfold DefaultPointRepresentation.copyToFloatArray.
  rewrite std_copy_nonneg by exact Hn.
  set (n := Z.to_nat (nr_dimensions_ this)) in *.
  assert (Hlen : length (Some <$> take n (floats_of p)) = n)
    by (rewrite length_fmap, length_take; lia).
  rewrite <- Hlen at 1. rewrite copy_from_spec.
  - rewrite Hlen. reflexivity.
  - intros j x Hj. change (0 + j)%nat with j.
    rewrite list_lookup_fmap in Hj.
    destruct (take n (floats_of p) !! j) as [y|] eqn:Hy; [|discriminate].
    injection Hj as <-. pose proof (yields_load_float p n j y Hy) as E.
    change (0 + j)%nat with j in E. rewrite E. reflexivity.
  - rewrite Hlen. simpl. exact Hout.
Qed.

(** ** setRescaleValues *)

(** X1.  After a call of [setRescaleValues] (on a representation with a
    non-negative number of dimensions and an array of at least that many
    weights), [isTrivial()] is true exactly when the flag [trivial_] is set and
    the representation has no dimension: with one dimension or more the stored
    weights make it false, with none [alpha_] stays empty. *)
Theorem isTrivial_after_setRescaleValues_eq (this : PointRepresentation)
  (w : list float) :
  0 <= nr_dimensions_ this ->
  (Z.to_nat (nr_dimensions_ this) <= length w)%nat ->
  exists this',
    setRescaleValues this w = Ok this' /\
    isTrivial this' = trivial_ this && (nr_dimensions_ this =? 0).
Proof.
  intros Hn Hw. eexists. split; [apply setRescaleValues_spec; assumption|].
  unfold isTrivial. cbn [alpha_ trivial_]. f_equal.
  rewrite vector_empty_take by exact Hw.
  destruct (Z.eqb_spec (nr_dimensions_ this) 0) as [E|E].
  - rewrite E. reflexivity.
  - apply Nat.eqb_neq. lia.
Qed.

Lemma isTrivial_after_setRescaleValues_eq_witness :
  exists this',
    setRescaleValues (DefaultPointRepresentation.ctor 8) [one; nan; zero] = Ok this' /\
    isTrivial this'
    = trivial_ (DefaultPointRepresentation.ctor 8)
      && (nr_dimensions_ (DefaultPointRepresentation.ctor 8) =? 0).
Proof.
  apply (isTrivial_after_setRescaleValues_eq (DefaultPointRepresentation.ctor 8)
           [one; nan; zero]).
  - vm_compute. discriminate.
  - vm_compute. lia.
Defined.

(** X2.  Of two calls of [setRescaleValues] in a row the second one decides:
    the object is the one a single call with the second array leaves, nothing
    of the first array remains. *)
Theorem setRescaleValues_last_wins (this : PointRepresentation) (w1 w2 : list float) :
  0 <= nr_dimensions_ this ->
  (Z.to_nat (nr_dimensions_ this) <= length w1)%nat ->
  (Z.to_nat (nr_dimensions_ this) <= length w2)%nat ->
  (this1 <-- setRescaleValues this w1 ;; setRescaleValues this1 w2)
  = setRescaleValues this w2.
Proof.
  intros Hn H1 H2.
  rewrite (setRescaleValues_spec this w1) by assumption. simpl.
  rewrite !setRescaleValues_spec by assumption. reflexivity.
Qed.

Lemma setRescaleValues_last_wins_witness :
  (this1 <-- setRescaleValues (DefaultPointRepresentation.ctor 12) [zero; zero; zero] ;;
   setRescaleValues this1 [one; two; nan; one])
  = setRescaleValues (DefaultPointRepresentation.ctor 12) [one; two; nan; one].
Proof.
  apply (setRescaleValues_last_wins (DefaultPointRepresentation.ctor 12)
           [zero; zero; zero] [one; two; nan; one]).
  - vm_compute. discriminate.
  - vm_compute. lia.
  - vm_compute. lia.
Defined.

(** X3.  [setRescaleValues] trusts the caller for the length of the array: on
    an array of fewer than [nr_dimensions_] weights the copy reads past its
    end, which is undefined behaviour; no exception is thrown. *)
Theorem setRescaleValues_short_array (this : PointRepresentation) (w : list float) :
  0 <= nr_dimensions_ this ->
  (length w < Z.to_nat (nr_dimensions_ this))%nat ->
  setRescaleValues this w = Undefined.
Proof.
  intros Hn Hw. unfold setRescaleValues.
  destruct (vector_resize_nonneg (alpha_ this) _ Hn) as (a & -> & Ha). simpl.
  rewrite std_copy_nonneg by exact Hn.
  rewrite (copy_from_source_short (read w) w 0 _ a).
  - reflexivity.
  - apply yields_read_all.
  - unfold read. simpl. rewrite lookup_ge_None_2 by lia. reflexivity.
  - exact Hw.
  - simpl. lia.
Qed.

Lemma setRescaleValues_short_array_witness :
  setRescaleValues (DefaultPointRepresentation.ctor 12) [one; one] = Undefined.
Proof.
  apply (setRescaleValues_short_array (DefaultPointRepresentation.ctor 12) [one; one]).
  - vm_compute. discriminate.
  - vm_compute. lia.
Defined.

(** ** vectorize *)

(** X4.  [vectorize] trusts the caller for the size of [out]: into a buffer of
    fewer than [nr_dimensions_] elements it writes out of bounds, which is
    undefined behaviour, after the elements that fit have been written. *)
Theorem vectorize_short_buffer cp (this : PointRepresentation) (p : PointT)
  (vals out : list float) :
  0 <= nr_dimensions_ this ->
  produces cp this p vals ->
  (alpha_ this <> [] -> length (alpha_ this) = Z.to_nat (nr_dimensions_ this)) ->
  (length out < Z.to_nat (nr_dimensions_ this))%nat ->
  vectorize cp this p out = Undefined.
Proof.
  intros Hn [Hlen Hcp] Halpha Hout. unfold vectorize.
  rewrite new_float_array_nonneg by exact Hn. simpl.
  rewrite Hcp. simpl.
  set (n := Z.to_nat (nr_dimensions_ this)) in *.
  destruct (alpha_ this) as [|a0 alpha] eqn:Ea; cbn [vector_empty].
  - rewrite vectorize_plain_copy. rewrite <- Hlen.
    apply copy_from_short; [apply yields_read_cell|lia|lia].
  - specialize (Halpha ltac:(discriminate)).
    rewrite vectorize_scaled_copy.
    assert (Hz : length (zip_with mul vals (a0 :: alpha)) = n)
      by (rewrite length_zip_with; lia).
    rewrite <- Hz at 1. apply copy_from_short; [|lia|lia].
    intros j y Hj. change (0 + j)%nat with j.
    apply lookup_zip_with_Some in Hj as (x & a & -> & Hx & Ha).
    unfold read_cell, read. rewrite list_lookup_fmap, Hx, Ha. reflexivity.
Qed.

Lemma vectorize_short_buffer_witness :
  vectorize DefaultPointRepresentation.copyToFloatArray
    (DefaultPointRepresentation.ctor 12) point_1_nan_inf [zero; zero] = Undefined.
Proof.
  apply (vectorize_short_buffer DefaultPointRepresentation.copyToFloatArray
           (DefaultPointRepresentation.ctor 12) point_1_nan_inf
           [one; nan; S754_infinity true] [zero; zero]).
  - vm_compute. discriminate.
  - split; reflexivity.
  - intros H. exfalso. apply H. reflexivity.
  - vm_compute. lia.
Defined.

(** ** The default representation on the points of its type *)

(** X6.  [copyToFloatArray] of the default representation of a point type,
    called on a point of that type and a buffer of at least [nr_dimensions_]
    cells, never reads outside the point: it returns, has written the leading
    [nr_dimensions_] floats of the point, and has left the cells of the buffer
    from [nr_dimensions_] on as they were. *)
Theorem Default_copyToFloatArray_frame (p : PointT) (out : scratch) :
  sizeof p / sizeof_float <= INT_MAX ->
  (Z.to_nat (nr_dimensions_ (DefaultPointRepresentation.ctor (sizeof p)))
   <= length out)%nat ->
  DefaultPointRepresentation.copyToFloatArray
    (DefaultPointRepresentation.ctor (sizeof p)) p out
  = Ok ((Some <$> take (Z.to_nat (nr_dimensions_ (DefaultPointRepresentation.ctor (sizeof p))))
                    (floats_of p))
        ++ drop (Z.to_nat (nr_dimensions_ (DefaultPointRepresentation.ctor (sizeof p)))) out).
Proof.
  intros Hmax Hout. destruct (ctor_in_bounds p Hmax) as [Hn Hb].
  apply Default_copyToFloatArray_into; assumption.
Qed.

Lemma Default_copyToFloatArray_frame_witness :
  DefaultPointRepresentation.copyToFloatArray
    (DefaultPointRepresentation.ctor (sizeof point_1_2_0_nan)) point_1_2_0_nan
    [None; Some nan; None; Some one; None]
  = Ok ((Some <$> take (Z.to_nat (nr_dimensions_
                          (DefaultPointRepresentation.ctor (sizeof point_1_2_0_nan))))
                    (floats_of point_1_2_0_nan))
        ++ drop (Z.to_nat (nr_dimensions_
                   (DefaultPointRepresentation.ctor (sizeof point_1_2_0_nan))))
             [None; Some nan; None; Some one; None]).
Proof.
  apply (Default_copyToFloatArray_frame point_1_2_0_nan
           [None; Some nan; None; Some one; None]).
  - vm_compute. discriminate.
  - vm_compute. lia.
Defined.

(** X12.  The whole chain on the default representation of a point type:
    after construction and a call of [setRescaleValues] with at least
    [nr_dimensions_] weights, [vectorize] on any point of the type and any
    buffer of at least [nr_dimensions_] elements returns (no exception, no
    undefined behaviour), with the leading floats of the point multiplied by
    the weights in front and the rest of the buffer untouched. *)
Theorem Default_vectorize_weighted (p : PointT) (w out : list float) :
  sizeof p / sizeof_float <= INT_MAX ->
  (Z.to_nat (nr_dimensions_ (DefaultPointRepresentation.ctor (sizeof p)))
   <= length w)%nat ->
  (Z.to_nat (nr_dimensions_ (DefaultPointRepresentation.ctor (sizeof p)))
   <= length out)%nat ->
  exists this',
    setRescaleValues (DefaultPointRepresentation.ctor (sizeof p)) w = Ok this' /\
    vectorize DefaultPointRepresentation.copyToFloatArray this' p out
    = Ok (zip_with mul
            (take (Z.to_nat (nr_dimensions_ (DefaultPointRepresentation.ctor (sizeof p))))
               (floats_of p))
            w
          ++ drop (Z.to_nat (nr_dimensions_ (DefaultPointRepresentation.ctor (sizeof p))))
               out).
Proof.
  intros Hmax Hw Hout. destruct (ctor_in_bounds p Hmax) as [Hn Hb].
  set (this := DefaultPointRepresentation.ctor (sizeof p)) in *.
  set (n := Z.to_nat (nr_dimensions_ this)) in *.
  eexists. split; [apply setRescaleValues_spec; assumption|]. fold n.
  set (this' := {| nr_dimensions_ := nr_dimensions_ this; alpha_ := take n w;
                   trivial_ := trivial_ this |}).
  assert (Hvals : produces DefaultPointRepresentation.copyToFloatArray this' p
                    (take n (floats_of p))).
  { apply (Default_copyToFloatArray_reinterprets this' p); assumption. }
  rewrite (vectorize_closed_form _ this' p _ out Hn Hvals Hout)
    by (intros _; cbn [alpha_ nr_dimensions_ this']; rewrite length_take; fold n; lia).
  cbn [alpha_ nr_dimensions_ this']. fold n. f_equal. f_equal.
  assert (Hzip : zip_with mul (take n (floats_of p)) (take n w)
                 = zip_with mul (take n (floats_of p)) w).
  { apply zip_with_take_r'. rewrite length_take. lia. }
  destruct (take n w) as [|a l] eqn:E; cbn [vector_empty].
  - apply (f_equal length) in E. rewrite length_take in E. simpl in E.
    destruct (take n (floats_of p)) as [|x l] eqn:F; [destruct w; reflexivity|].
    apply (f_equal length) in F. rewrite length_take in F. simpl in F. lia.
  - exact Hzip.
Qed.

Lemma Default_vectorize_weighted_witness :
  exists this',
    setRescaleValues (DefaultPointRepresentation.ctor (sizeof point_1_2_0_nan))
      [two; zero; nan; one] = Ok this' /\
    vectorize DefaultPointRepresentation.copyToFloatArray this' point_1_2_0_nan
      [nan; nan; nan; nan; nan]
    = Ok (zip_with mul
            (take (Z.to_nat (nr_dimensions_
                     (DefaultPointRepresentation.ctor (sizeof point_1_2_0_nan))))
               (floats_of point_1_2_0_nan))
            [two; zero; nan; one]
          ++ drop (Z.to_nat (nr_dimensions_
                     (DefaultPointRepresentation.ctor (sizeof point_1_2_0_nan))))
               [nan; nan; nan; nan; nan]).
Proof.
  apply (Default_vectorize_weighted point_1_2_0_nan [two; zero; nan; one]
           [nan; nan; nan; nan; nan]).
  - vm_compute. discriminate.
  - vm_compute. lia.
  - vm_compute. lia.
Defined.

(** [x * 1.0f] is [x] for a binary32 number or infinity [x]; the case of
    a NaN, where a product may change the payload, is left out. *)
Lemma mul_one_r_number (x : float) : x <> nan -> is_binary32 x -> mul x one = x.
Proof.
  intros Hx Hb. destruct x as [s|s| |s m e].
  - destruct s; reflexivity.
  - destruct s; reflexivity.
  - contradiction.
  - apply mul_one_r. exact Hb.
Qed.

Lemma zip_with_mul_ones_numbers (vals w : list float) :
  Forall (fun x => x <> nan) vals ->
  Forall is_binary32 vals ->
  Forall (fun a => a = one) w ->
  (length vals <= length w)%nat ->
  zip_with mul vals w = vals.
Proof.
  intros Hv. revert w. induction Hv as [|x vals Hx Hv IH]; intros w Hb Hw Hlen.
  - reflexivity.
  - apply Forall_cons in Hb as [Hbx Hb].
    destruct Hw as [|a w Ha Hw]; simpl in Hlen; [lia|].
    simpl. subst a. rewrite mul_one_r_number by assumption. f_equal.
    apply IH; [exact Hb | exact Hw | lia].
Qed.

(** X5.  On the default representation of a point type, storing weights that
    are all 1.0 changes nothing in what [vectorize] writes, for every point of
    the type whose leading [nr_dimensions_] floats are numbers or infinities:
    the output is these floats, as without weights.  A coordinate that is a
    NaN is left out: there the product [x * 1.0f] is again a NaN, but it may
    differ from the copied one in its payload (a signalling NaN comes out
    quiet), which the float type of this file does not record. *)
Theorem Default_unit_weights_vectorize (p : PointT) (w out : list float) :
  sizeof p / sizeof_float <= INT_MAX ->
  Forall (fun x => x <> nan)
    (take (Z.to_nat (nr_dimensions_ (DefaultPointRepresentation.ctor (sizeof p))))
       (floats_of p)) ->
  Forall (fun a => a = one) w ->
  (Z.to_nat (nr_dimensions_ (DefaultPointRepresentation.ctor (sizeof p)))
   <= length w)%nat ->
  (Z.to_nat (nr_dimensions_ (DefaultPointRepresentation.ctor (sizeof p)))
   <= length out)%nat ->
  exists this',
    setRescaleValues (DefaultPointRepresentation.ctor (sizeof p)) w = Ok this' /\
    vectorize DefaultPointRepresentation.copyToFloatArray this' p out
    = vectorize DefaultPointRepresentation.copyToFloatArray
        (DefaultPointRepresentation.ctor (sizeof p)) p out /\
    vectorize DefaultPointRepresentation.copyToFloatArray this' p out
    = Ok (take (Z.to_nat (nr_dimensions_ (DefaultPointRepresentation.ctor (sizeof p))))
            (floats_of p)
          ++ drop (Z.to_nat (nr_dimensions_ (DefaultPointRepresentation.ctor (sizeof p))))
               out).
Proof.
  intros Hmax Hnum Hone Hw Hout. destruct (ctor_in_bounds p Hmax) as [Hn Hb].
  set (this := DefaultPointRepresentation.ctor (sizeof p)) in *.
  set (n := Z.to_nat (nr_dimensions_ this)) in *.
  set (vals := take n (floats_of p)) in *.
  assert (Hlen : length vals = n) by (unfold vals; rewrite length_take; lia).
  eexists. split; [apply setRescaleValues_spec; assumption|]. fold n.
  set (this' := {| nr_dimensions_ := nr_dimensions_ this; alpha_ := take n w;
                   trivial_ := trivial_ this |}).
  assert (Hvals : produces DefaultPointRepresentation.copyToFloatArray this p vals)
    by (apply Default_copyToFloatArray_reinterprets; assumption).
  assert (Hvals' : produces DefaultPointRepresentation.copyToFloatArray this' p vals)
    by (apply (Default_copyToFloatArray_reinterprets this' p); assumption).
  assert (Hthis : vectorize DefaultPointRepresentation.copyToFloatArray this p out
                  = Ok (vals ++ drop n out)).
  { rewrite (vectorize_closed_form _ this p vals out Hn Hvals Hout)
      by (intros E; exfalso; apply E; reflexivity).
    reflexivity. }
  assert (Hthis' : vectorize DefaultPointRepresentation.copyToFloatArray this' p out
                   = Ok (vals ++ drop n out)).
  { rewrite (vectorize_closed_form _ this' p vals out Hn Hvals' Hout)
      by (intros _; cbn [alpha_ nr_dimensions_ this']; rewrite length_take; fold n; lia).
    cbn [alpha_ nr_dimensions_ this']. fold n.
    destruct (take n w) as [|a l] eqn:E; cbn [vector_empty]; [reflexivity|].
    rewrite <- E. rewrite zip_with_mul_ones_numbers; [reflexivity|exact Hnum| | |].
    - apply Forall_take, floats_of_binary32.
    - apply Forall_take. exact Hone.
    - rewrite length_take. lia. }
  split; [|exact Hthis']. rewrite Hthis', Hthis. reflexivity.
Qed.

Lemma Default_unit_weights_vectorize_witness :
  exists this',
    setRescaleValues (DefaultPointRepresentation.ctor (sizeof point_1_2_0_nan))
      [one; one; one] = Ok this' /\
    vectorize DefaultPointRepresentation.copyToFloatArray this' point_1_2_0_nan
      [zero; zero; zero; two]
    = vectorize DefaultPointRepresentation.copyToFloatArray
        (DefaultPointRepresentation.ctor (sizeof point_1_2_0_nan)) point_1_2_0_nan
        [zero; zero; zero; two] /\
    vectorize DefaultPointRepresentation.copyToFloatArray this' point_1_2_0_nan
      [zero; zero; zero; two]
    = Ok (take (Z.to_nat (nr_dimensions_
                  (DefaultPointRepresentation.ctor (sizeof point_1_2_0_nan))))
            (floats_of point_1_2_0_nan)
          ++ drop (Z.to_nat (nr_dimensions_
                     (DefaultPointRepresentation.ctor (sizeof point_1_2_0_nan))))
               [zero; zero; zero; two]).
Proof.
  apply (Default_unit_weights_vectorize point_1_2_0_nan [one; one; one]
           [zero; zero; zero; two]).
  - vm_compute. discriminate.
  - vm_compute. repeat constructor; discriminate.
  - repeat constructor.
  - vm_compute. lia.
  - vm_compute. lia.
Defined.

(** X7.  The default conversion looks at the leading bytes of a point only:
    two points that agree on their first [4 * nr_dimensions_] bytes have the
    same outcome of [isValid] and of [vectorize], whatever the bytes behind
    hold (a NaN in a fourth float does not make a point invalid). *)
Theorem Default_leading_bytes_only (this : PointRepresentation) (p p' : PointT) :
  0 <= nr_dimensions_ this ->
  (4 * Z.to_nat (nr_dimensions_ this) <= length p)%nat ->
  (4 * Z.to_nat (nr_dimensions_ this) <= length p')%nat ->
  take (4 * Z.to_nat (nr_dimensions_ this)) p
  = take (4 * Z.to_nat (nr_dimensions_ this)) p' ->
  isValid DefaultPointRepresentation.copyToFloatArray this p
  = isValid DefaultPointRepresentation.copyToFloatArray this p' /\
  forall out,
    vectorize DefaultPointRepresentation.copyToFloatArray this p out
    = vectorize DefaultPointRepresentation.copyToFloatArray this p' out.
Proof.
  intros Hn Hp Hp' Heq.
  set (n := Z.to_nat (nr_dimensions_ this)) in *.
  assert (Hfl : take n (floats_of p) = take n (floats_of p'))
    by (rewrite !floats_of_take, Heq; reflexivity).
  pose proof (floats_of_in_bounds p n Hp) as Hb.
  pose proof (floats_of_in_bounds p' n Hp') as Hb'.
  pose proof (Default_copyToFloatArray_reinterprets this p Hn Hb) as Hr.
  pose proof (Default_copyToFloatArray_reinterprets this p' Hn Hb') as Hr'.
  split.
  - rewrite (isValid_forallb _ this p _ Hn Hr (fun _ => Hr)).
    rewrite (isValid_forallb _ this p' _ Hn Hr' (fun _ => Hr')).
    fold n. rewrite Hfl. reflexivity.
  - intros out. unfold vectorize.
    destruct Hr as [_ Hc], Hr' as [_ Hc']. fold n in Hc, Hc'.
    rewrite new_float_array_nonneg by exact Hn. fold n. simpl.
    rewrite Hc, Hc', Hfl. reflexivity.
Qed.

Lemma Default_leading_bytes_only_witness :
  isValid DefaultPointRepresentation.copyToFloatArray
    (DefaultPointRepresentation.ctor 16) point_1_2_0_1
  = isValid DefaultPointRepresentation.copyToFloatArray
      (DefaultPointRepresentation.ctor 16) point_1_2_0_nan /\
  forall out,
    vectorize DefaultPointRepresentation.copyToFloatArray
      (DefaultPointRepresentation.ctor 16) point_1_2_0_1 out
    = vectorize DefaultPointRepresentation.copyToFloatArray
        (DefaultPointRepresentation.ctor 16) point_1_2_0_nan out.
Proof.
  apply (Default_leading_bytes_only (DefaultPointRepresentation.ctor 16)
           point_1_2_0_1 point_1_2_0_nan).
  - vm_compute. discriminate.
  - vm_compute. lia.
  - vm_compute. lia.
  - reflexivity.
Defined.

(** ** isValid and vectorize together *)

(** X8.  Without rescale weights, [isValid(p)] tells whether the vector of
    [p] is usable: it returns true exactly when all of the [nr_dimensions_]
    values that [vectorize(p, out)] writes are finite. *)
Theorem isValid_true_iff_vectorize_finite cp (this : PointRepresentation) (p : PointT)
  (vals out : list float) :
  0 <= nr_dimensions_ this ->
  produces cp this p vals ->
  (trivial_ this = true -> reinterprets cp this p) ->
  alpha_ this = [] ->
  (Z.to_nat (nr_dimensions_ this) <= length out)%nat ->
  exists b out',
    isValid cp this p = Ok b /\
    vectorize cp this p out = Ok out' /\
    (b = true <->
     forall i x, (i < Z.to_nat (nr_dimensions_ this))%nat ->
                 out' !! i = Some x -> isfinite x = true).
Proof.
  intros Hn Hvals Htriv Ha Hout.
  exists (forallb isfinite vals), (vals ++ drop (Z.to_nat (nr_dimensions_ this)) out).
  split; [apply isValid_forallb; assumption|]. split.
  - rewrite (vectorize_closed_form cp this p vals out Hn Hvals Hout)
      by (intros E; congruence).
    rewrite Ha. reflexivity.
  - destruct Hvals as [Hlen _]. rewrite forallb_true_lookup. split.
    + intros H i x Hi Hx. rewrite lookup_app_l in Hx by lia. apply (H i x Hx).
    + intros H i x Hx. apply (H i x).
      * apply lookup_lt_Some in Hx. lia.
      * rewrite lookup_app_l by (apply lookup_lt_Some in Hx; lia). exact Hx.
Qed.

Lemma isValid_true_iff_vectorize_finite_witness :
  exists b out',
    isValid DefaultPointRepresentation.copyToFloatArray
      (DefaultPointRepresentation.ctor 12) point_1_nan_inf = Ok b /\
    vectorize DefaultPointRepresentation.copyToFloatArray
      (DefaultPointRepresentation.ctor 12) point_1_nan_inf [zero; zero; zero] = Ok out' /\
    (b = true <->
     forall i x, (i < Z.to_nat (nr_dimensions_ (DefaultPointRepresentation.ctor 12)))%nat ->
                 out' !! i = Some x -> isfinite x = true).
Proof.
  apply (isValid_true_iff_vectorize_finite DefaultPointRepresentation.copyToFloatArray
           (DefaultPointRepresentation.ctor 12) point_1_nan_inf
           [one; nan; S754_infinity true] [zero; zero; zero]).
  - vm_compute. discriminate.
  - split; reflexivity.
  - intros _. split; reflexivity.
  - reflexivity.
  - vm_compute. lia.
Defined.

(** X9.  Rescaling never repairs a point: when [isValid(p)] returns false,
    the vector that [vectorize(p, out)] writes holds a value that is not
    finite, whatever weights are stored (a NaN or an infinity times any weight
    is a NaN or an infinity). *)
Theorem invalid_point_stays_non_finite cp (this : PointRepresentation) (p : PointT)
  (vals out : list float) :
  0 <= nr_dimensions_ this ->
  produces cp this p vals ->
  (trivial_ this = true -> reinterprets cp this p) ->
  (alpha_ this <> [] -> length (alpha_ this) = Z.to_nat (nr_dimensions_ this)) ->
  (Z.to_nat (nr_dimensions_ this) <= length out)%nat ->
  isValid cp this p = Ok false ->
  exists out',
    vectorize cp this p out = Ok out' /\
    exists i x, (i < Z.to_nat (nr_dimensions_ this))%nat /\
                out' !! i = Some x /\ isfinite x = false.
Proof.
  intros Hn Hvals Htriv Halpha Hout Hinv.
  rewrite (isValid_forallb cp this p vals Hn Hvals Htriv) in Hinv.
  injection Hinv as Hinv. apply forallb_false_lookup in Hinv as (i & x & Hx & Hfin).
  rewrite (vectorize_closed_form cp this p vals out Hn Hvals Hout Halpha).
  destruct Hvals as [Hlen _].
  assert (Hi : (i < Z.to_nat (nr_dimensions_ this))%nat)
    by (apply lookup_lt_Some in Hx; lia).
  eexists. split; [reflexivity|]. exists i.
  destruct (alpha_ this) as [|a0 alpha] eqn:Ea; cbn [vector_empty].
  - exists x. split; [exact Hi|]. split; [|exact Hfin].
    rewrite lookup_app_l by lia. exact Hx.
  - specialize (Halpha ltac:(discriminate)).
    destruct (lookup_lt_is_Some_2 (a0 :: alpha) i) as [a Ha]; [lia|].
    exists (mul x a). split; [exact Hi|]. split; [|apply mul_not_finite; exact Hfin].
    rewrite lookup_app_l by (rewrite length_zip_with; lia).
    apply lookup_zip_with_Some. exists x, a. auto.
Qed.

Lemma invalid_point_stays_non_finite_witness :
  exists out',
    vectorize DefaultPointRepresentation.copyToFloatArray
      {| nr_dimensions_ := 3; alpha_ := [one; zero; zero]; trivial_ := true |}
      point_1_nan_inf [zero; zero; zero] = Ok out' /\
    exists i x, (i < Z.to_nat 3)%nat /\ out' !! i = Some x /\ isfinite x = false.
Proof.
  apply (invalid_point_stays_non_finite DefaultPointRepresentation.copyToFloatArray
           {| nr_dimensions_ := 3; alpha_ := [one; zero; zero]; trivial_ := true |}
           point_1_nan_inf [one; nan; S754_infinity true] [zero; zero; zero]).
  - vm_compute. discriminate.
  - split; reflexivity.
  - intros _. split; reflexivity.
  - intros _. reflexivity.
  - vm_compute. lia.
  - reflexivity.
Defined.

(** ** What no call changes *)

Lemma after_call_fields cp (this this' : PointRepresentation) (c : call) :
  after_call cp this c = Ok this' ->
  nr_dimensions_ this' = nr_dimensions_ this /\ trivial_ this' = trivial_ this.
Proof.
  intros H. destruct c; simpl in H;
    try (injection H as <-; split; reflexivity);
    try (apply bind_Ok in H as (? & _ & H1); injection H1 as <-; split; reflexivity).
  apply setRescaleValues_Ok in H as (Hn & Ht & _). auto.
Qed.

(** X10.  The number of dimensions and the flag [trivial_] are fixed at
    construction: after any sequence of calls of the member functions that
    return, [getNumberOfDimensions()] gives what it gave before and [trivial_]
    is as it was. *)
Theorem dimensions_and_flag_constant cp (cs : list call)
  (this this' : PointRepresentation) :
  after_calls cp this cs = Ok this' ->
  getNumberOfDimensions this' = getNumberOfDimensions this /\
  trivial_ this' = trivial_ this.
Proof.
  revert this. induction cs as [|c cs IH]; intros this H; simpl in H.
  - injection H as <-. split; reflexivity.
  - apply bind_Ok in H as (this1 & H1 & H2).
    apply after_call_fields in H1 as [Hn Ht].
    apply IH in H2 as [Hn' Ht']. unfold getNumberOfDimensions in *.
    split; congruence.
Qed.

Lemma dimensions_and_flag_constant_witness :
  getNumberOfDimensions
    {| nr_dimensions_ := 3; alpha_ := [one; two; zero]; trivial_ := true |}
  = getNumberOfDimensions (DefaultPointRepresentation.ctor 12) /\
  trivial_ {| nr_dimensions_ := 3; alpha_ := [one; two; zero]; trivial_ := true |}
  = trivial_ (DefaultPointRepresentation.ctor 12).
Proof.
  apply (dimensions_and_flag_constant DefaultPointRepresentation.copyToFloatArray
           [call_isValid point_1_nan_inf;
            call_setRescaleValues [zero; zero; zero];
            call_vectorize point_1_nan_inf [zero; zero; zero];
            call_setRescaleValues [one; two; zero; nan];
            call_getNumberOfDimensions]
           (DefaultPointRepresentation.ctor 12)).
  reflexivity.
Defined.




(** ** A negative number of dimensions *)

(** X13.  With a negative [nr_dimensions_] (a subclass may store any [int])
    no conversion takes place: [vectorize] throws [std::bad_array_new_length]
    from its [new float[nr_dimensions_]] before [copyToFloatArray] is called,
    and so does [isValid] unless [trivial_] is set, in which case its loop runs
    zero times and it returns true; [setRescaleValues] throws
    [std::length_error] from [resize]. *)
Theorem negative_dimensions_throw cp (this : PointRepresentation) (p : PointT)
  (out w : list float) :
  nr_dimensions_ this < 0 ->
  vectorize cp this p out = Throw bad_array_new_length /\
  isValid cp this p
  = (if trivial_ this then Ok true else Throw bad_array_new_length) /\
  setRescaleValues this w = Throw length_error.
Proof.
  intros Hn.
  assert (Hnew : new_float_array (nr_dimensions_ this) = Throw bad_array_new_length).
  { unfold new_float_array. destruct (Z.ltb_spec (nr_dimensions_ this) 0); [reflexivity|lia]. }
  split; [|split].
  - unfold vectorize. rewrite Hnew. reflexivity.
  - unfold isValid, isValid_fast, isValid_full. rewrite Hnew.
    destruct (trivial_ this); [|reflexivity].
    replace (Z.to_nat (nr_dimensions_ this)) with 0%nat by lia. reflexivity.
  - unfold setRescaleValues, vector_resize.
    destruct (Z.ltb_spec (nr_dimensions_ this) 0); [reflexivity|lia].
Qed.

Lemma negative_dimensions_throw_witness :
  vectorize DefaultPointRepresentation.copyToFloatArray
    {| nr_dimensions_ := -1; alpha_ := []; trivial_ := true |} point_1_nan_inf
    [zero; zero; zero] = Throw bad_array_new_length /\
  isValid DefaultPointRepresentation.copyToFloatArray
    {| nr_dimensions_ := -1; alpha_ := []; trivial_ := true |} point_1_nan_inf
  = (if trivial_ {| nr_dimensions_ := -1; alpha_ := []; trivial_ := true |}
     then Ok true else Throw bad_array_new_length) /\
  setRescaleValues {| nr_dimensions_ := -1; alpha_ := []; trivial_ := true |}
    [one; one; one] = Throw length_error.
Proof.
  apply (negative_dimensions_throw DefaultPointRepresentation.copyToFloatArray
           {| nr_dimensions_ := -1; alpha_ := []; trivial_ := true |} point_1_nan_inf
           [zero; zero; zero] [one; one; one]).
  vm_compute. reflexivity.
Defined.

(** ** isValid on the default representation *)

(** X14.  On the default representation of a point type [isValid] returns
    for every point of the type (it never reads outside the point), before and
    after rescale weights are stored, and what it returns is whether the
    leading [nr_dimensions_] floats of the point (at most three) are all
    finite. *)
Theorem Default_isValid_leading_floats (p : PointT) (w : list float) :
  sizeof p / sizeof_float <= INT_MAX ->
  (Z.to_nat (nr_dimensions_ (DefaultPointRepresentation.ctor (sizeof p)))
   <= length w)%nat ->
  exists this',
    setRescaleValues (DefaultPointRepresentation.ctor (sizeof p)) w = Ok this' /\
    isValid DefaultPointRepresentation.copyToFloatArray this' p
    = Ok (forallb isfinite (take 3 (floats_of p))) /\
    isValid DefaultPointRepresentation.copyToFloatArray
      (DefaultPointRepresentation.ctor (sizeof p)) p
    = Ok (forallb isfinite (take 3 (floats_of p))).
Proof.
  intros Hmax Hw. destruct (ctor_in_bounds p Hmax) as [Hn Hb].
  assert (Hsz : 0 <= sizeof p) by (unfold sizeof; lia).
  pose proof (ctor_nr_dimensions (sizeof p) Hsz Hmax) as Hdim.
  pose proof (length_floats_of p) as Hlen.
  set (this := DefaultPointRepresentation.ctor (sizeof p)) in *.
  assert (Htake : take (Z.to_nat (nr_dimensions_ this)) (floats_of p)
                  = take 3 (floats_of p)).
  { destruct (Z.le_gt_cases 3 (sizeof p / sizeof_float)) as [H3|H3].
    - rewrite Hdim, Z.min_r by lia. reflexivity.
    - rewrite Hdim, Z.min_l by lia.
      rewrite !take_ge by lia. reflexivity. }
  pose proof (Default_copyToFloatArray_reinterprets this p Hn Hb) as Hr.
  assert (Hthis : isValid DefaultPointRepresentation.copyToFloatArray this p
                  = Ok (forallb isfinite (take 3 (floats_of p)))).
  { rewrite (isValid_forallb _ this p _ Hn Hr (fun _ => Hr)), Htake. reflexivity. }
  eexists. split; [apply setRescaleValues_spec; assumption|].
  split; [|exact Hthis].
  rewrite isValid_alpha by apply Default_copyToFloatArray_ignores_alpha.
  exact Hthis.
Qed.

Lemma Default_isValid_leading_floats_witness :
  exists this',
    setRescaleValues (DefaultPointRepresentation.ctor (sizeof point_1_2_0_nan))
      [nan; nan; nan] = Ok this' /\
    isValid DefaultPointRepresentation.copyToFloatArray this' point_1_2_0_nan
    = Ok (forallb isfinite (take 3 (floats_of point_1_2_0_nan))) /\
    isValid DefaultPointRepresentation.copyToFloatArray
      (DefaultPointRepresentation.ctor (sizeof point_1_2_0_nan)) point_1_2_0_nan
    = Ok (forallb isfinite (take 3 (floats_of point_1_2_0_nan))).
Proof.
  apply (Default_isValid_leading_floats point_1_2_0_nan [nan; nan; nan]).
  - vm_compute. discriminate.
  - vm_compute. lia.
Defined.
